(** * StringKernel.calc_k (GPy/kern/src/string.py)

    A shallow embedding of the dynamic-programming routine [calc_k] of the
    string kernel, together with the properties stated about it.

    The routine works on Python objects: the two input sequences, the kernel
    instance it is called on, and three lists it builds itself (the row of
    floats shared by every line of [dp], the outer list [dp], and the
    accumulator [p]).  Objects live in a store indexed by locations, so that
    aliasing and the absence of side effects are statements about the store. *)

From Stdlib Require Import Floats Ascii.
From stdpp Require Import gmap list strings.

(** ** Numbers

    [dp] and [p] hold Python floats, and the code only ever adds them.  The
    development is parametric in the arithmetic, with two instances: IEEE
    binary64 (what CPython's [float] is) and exact integers. *)

Class Arith (num : Type) := {
  zero : num;
  one : num;
  add : num → num → num;
}.

#[export] Instance float_arith : Arith float := {|
  zero := 0%float;
  one := 1%float;
  add := PrimFloat.add;
|}.

#[export] Instance Z_arith : Arith Z := {|
  zero := 0%Z;
  one := 1%Z;
  add := Z.add;
|}.

(** ** Exceptions

    [TypeError] is what [len] raises on an argument without a length, and
    [IndexError] what indexing raises out of range.  [InvalidInputError] is the
    error kind named by the specification; no statement of [calc_k] raises
    it. *)

Inductive exn : Type :=
  | TypeError
  | IndexError
  | InvalidInputError.

#[export] Instance exn_eq_dec : EqDecision exn.
Proof. solve_decision. Defined.

(** ** Objects and the store *)

Definition loc : Type := positive.

(** An argument of [calc_k]: [None], or a reference to an object. *)
Inductive value : Type :=
  | VNone
  | VRef (l : loc).

Section Kernel.

Context {sym : Type} `{EqDecision sym}.
Context {num : Type} `{Arith num}.

Inductive object : Type :=
  | OSeq (s : list sym)          (* a sequence of symbols: a str, a list *)
  | OFloats (l : list num)       (* a list of floats *)
  | ORows (l : list loc)         (* a list of references to lists *)
  | OKern (name : string).       (* a StringKernel instance *)

Local Abbreviation heap := (gmap loc object).

(** ** The monad of Python statements: a store, and a result or an exception *)

Inductive outcome (A : Type) : Type :=
  | Ok (a : A) (h : heap)
  | Raise (e : exn) (h : heap).
Arguments Ok {A} a h.
Arguments Raise {A} e h.

Definition M (A : Type) : Type := heap → outcome A.

Definition ret {A} (a : A) : M A := λ h, Ok a h.

Definition bind {A B} (c : M A) (k : A → M B) : M B :=
  λ h, match c h with
       | Ok a h' => k a h'
       | Raise e h' => Raise e h'
       end.

#[export] Instance M_ret : MRet M := @ret.
#[export] Instance M_bind : MBind M := λ A B k c, bind c k.

(** [for x in xs: acc = body(x, acc)]: a loop over a list of indices that
    carries the local variables the body assigns. *)
Fixpoint for_each {A S} (xs : list A) (body : A → S → M S) (s : S) : M S :=
  match xs with
  | [] => ret s
  | x :: xs' => s' ← body x s; for_each xs' body s'
  end.

(** [xrange(lo, hi)] *)
Definition xrange (lo hi : nat) : list nat := seq lo (hi - lo).

(** ** Primitive operations *)

(** [len(v)] *)
Definition len (v : value) : M nat :=
  λ h, match v with
       | VNone => Raise TypeError h
       | VRef l =>
           match h !! l with
           | Some (OSeq s) => Ok (length s) h
           | Some (OFloats xs) => Ok (length xs) h
           | Some (ORows rs) => Ok (length rs) h
           | Some (OKern _) | None => Raise TypeError h
           end
       end.

(** [v[k]] on a sequence of symbols *)
Definition getitem_sym (v : value) (k : nat) : M sym :=
  λ h, match v with
       | VNone => Raise TypeError h
       | VRef l =>
           match h !! l with
           | Some (OSeq s) =>
               match s !! k with
               | Some a => Ok a h
               | None => Raise IndexError h
               end
           | _ => Raise TypeError h
           end
       end.

(** A new object at a location that is not in use. *)
Definition alloc (o : object) : M loc :=
  λ h, let l := fresh (dom h) in Ok l (<[l := o]> h).

(** [[x] * k] *)
Definition new_floats (x : num) (k : nat) : M loc :=
  alloc (OFloats (replicate k x)).

(** [[r] * k], for a reference [r]: [k] times the same reference *)
Definition new_rows (r : loc) (k : nat) : M loc :=
  alloc (ORows (replicate k r)).

(** [g[i]] on a list of references *)
Definition getitem_row (g : loc) (i : nat) : M loc :=
  λ h, match h !! g with
       | Some (ORows rs) =>
           match rs !! i with
           | Some r => Ok r h
           | None => Raise IndexError h
           end
       | _ => Raise TypeError h
       end.

(** [l[k]] on a list of floats *)
Definition getitem_float (l : loc) (k : nat) : M num :=
  λ h, match h !! l with
       | Some (OFloats xs) =>
           match xs !! k with
           | Some x => Ok x h
           | None => Raise IndexError h
           end
       | _ => Raise TypeError h
       end.

(** [l[k] = x] on a list of floats *)
Definition setitem_float (l : loc) (k : nat) (x : num) : M () :=
  λ h, match h !! l with
       | Some (OFloats xs) =>
           if decide (k < length xs)
           then Ok () (<[l := OFloats (<[k := x]> xs)]> h)
           else Raise IndexError h
       | _ => Raise TypeError h
       end.

(** ** calc_k *)

(** Body of the first inner loop, lines 24-27; [last] is carried. *)
Definition match_step (s1 s2 : value) (dp p : loc) (i k last : nat) : M nat :=
  x ← getitem_float p last;
  setitem_float p k x;;                           (* p[k] = p[last] *)
  a ← getitem_sym s2 (k - 1);
  b ← getitem_sym s1 (i - 1);
  if bool_decide (a = b) then                      (* if s2[k-1] == s1[i-1]: *)
    x ← getitem_float p last;
    r ← getitem_row dp (i - 1);
    y ← getitem_float r (k - 1);
    setitem_float p k (add x y);;                 (* p[k] = p[last] + dp[i-1][k-1] *)
    ret k                                          (* last = k *)
  else ret last.

(** Body of the second inner loop, line 29. *)
Definition sum_step (dp p : loc) (i k : nat) : M () :=
  r ← getitem_row dp (i - 1);
  x ← getitem_float r k;
  y ← getitem_float p k;
  r' ← getitem_row dp i;
  setitem_float r' k (add x y).                    (* dp[i][k] = dp[i-1][k] + p[k] *)

(** Body of the outer loop, lines 21-29.  [p[0] = 0] stores the integer 0; it
    is only ever added to floats, where it counts as 0.0. *)
Definition outer_step (s1 s2 : value) (dp p : loc) (m i : nat) : M () :=
  setitem_float p 0 zero;;                        (* last = 0; p[0] = 0 *)
  for_each (xrange 1 (m + 1)) (match_step s1 s2 dp p i) 0;;
  for_each (xrange 1 (m + 1)) (λ k _, sum_step dp p i k) ().

(** Lines 18-19: the allocation of [dp] and [p]. *)
Definition init (n m : nat) : M (loc * loc) :=
  row ← new_floats one (m + 1);
  dp ← new_rows row (n + 1);                      (* dp = [[1.0] * (m + 1)] * (n + 1) *)
  p ← new_floats zero (m + 1);                    (* p = [0.0] * (m + 1) *)
  ret (dp, p).

Definition calc_k (self : loc) (s1 s2 : value) : M num :=
  n ← len s1;
  m ← len s2;
  '(dp, p) ← init n m;
  for_each (xrange 1 (n + 1)) (λ i _, outer_step s1 s2 dp p m i) ();;
  r ← getitem_row dp n;
  getitem_float r m.                               (* return dp[n][m] *)

(** ** The same loops on list values

    What the three lists hold after each statement, as functions on lists:
    [d] is the row every line of [dp] refers to, [pv] the contents of [p]. *)

Definition get (l : list num) (k : nat) : num := default zero (l !! k).

Definition match_pure (a : sym) (s2 : list sym) (d : list num)
    (st : list num * nat) (k : nat) : list num * nat :=
  let p1 := <[k := get st.1 st.2]> st.1 in
  if bool_decide (s2 !! (k - 1) = Some a)
  then (<[k := add (get p1 st.2) (get d (k - 1))]> p1, k)
  else (p1, st.2).

Definition sum_pure (pv d : list num) (k : nat) : list num :=
  <[k := add (get d k) (get pv k)]> d.

Definition outer_pure (s2 : list sym) (st : list num * list num) (a : sym)
    : list num * list num :=
  let m := length s2 in
  let pv := (foldl (match_pure a s2 st.1) (<[0 := zero]> st.2, 0) (xrange 1 (m + 1))).1 in
  (foldl (sum_pure pv) st.1 (xrange 1 (m + 1)), pv).

Definition rows_pure (s1 s2 : list sym) : list num * list num :=
  let m := length s2 in
  foldl (outer_pure s2) (replicate (m + 1) one, replicate (m + 1) zero) s1.

(** The value [calc_k] returns on the sequences [s1] and [s2]. *)
Definition score (s1 s2 : list sym) : num :=
  get (rows_pure s1 s2).1 (length s2).

(** The store during a call: the caller's store [h0] and the three lists. *)
Definition call_heap (h0 : heap) (row dp p : loc) (n : nat) (d pv : list num) : heap :=
  <[p := OFloats pv]> (<[dp := ORows (replicate (n + 1) row)]> (<[row := OFloats d]> h0)).

(** The accumulator as a function of the column: [acc a s2 f k] is what
    [p[k]] holds after the first inner loop for the symbol [a], when the shared
    row holds [f j] in column [j]. *)
Fixpoint acc (a : sym) (s2 : list sym) (f : nat → num) (k : nat) : num :=
  match k with
  | 0 => zero
  | S k' =>
      if bool_decide (s2 !! k' = Some a)
      then add (acc a s2 f k') (f k')
      else acc a s2 f k'
  end.

(** The shared row after one outer iteration for the symbol [a]. *)
Definition next_row (a : sym) (s2 : list sym) (d : list num) : list num :=
  imap (λ k x, match k with 0 => x | S _ => add x (acc a s2 (get d) k) end) d.

Definition row_of (s1 s2 : list sym) : list num :=
  foldl (λ d a, next_row a s2 d) (replicate (length s2 + 1) one) s1.

(** ** The reference recurrence of the specification

    The grid is a list of rows that are values, hence independent of one
    another; [p] and [last] are handled as in the text: [p[0] = 0] and
    [last = 0] at the start of an outer iteration, then for [k] from 1 to [m]
    [p[k] = p[last]], and on a match [p[k] = p[last] + dp[i-1][k-1]] and
    [last = k]; afterwards [dp[i][k] = dp[i-1][k] + p[k]]. *)

Definition grid_get (g : list (list num)) (i k : nat) : num :=
  get (default [] (g !! i)) k.

Definition ref_match (s1 s2 : list sym) (g : list (list num)) (i : nat)
    (st : list num * nat) (k : nat) : list num * nat :=
  let p1 := <[k := get st.1 st.2]> st.1 in
  if bool_decide (s2 !! (k - 1) = s1 !! (i - 1))
  then (<[k := add (get p1 st.2) (grid_get g (i - 1) (k - 1))]> p1, k)
  else (p1, st.2).

Definition ref_sum (pv : list num) (i : nat) (g : list (list num)) (k : nat)
    : list (list num) :=
  <[i := <[k := add (grid_get g (i - 1) k) (get pv k)]> (default [] (g !! i))]> g.

Definition ref_outer (s1 s2 : list sym) (st : list (list num) * list num) (i : nat)
    : list (list num) * list num :=
  let m := length s2 in
  let pv := (foldl (ref_match s1 s2 st.1 i) (<[0 := zero]> st.2, 0) (xrange 1 (m + 1))).1 in
  (foldl (ref_sum pv i) st.1 (xrange 1 (m + 1)), pv).

(** The grid and [p] after the outer iterations 1 to [i]. *)
Definition ref_grid (s1 s2 : list sym) (i : nat) : list (list num) * list num :=
  let n := length s1 in
  let m := length s2 in
  foldl (ref_outer s1 s2)
    (replicate (n + 1) (replicate (m + 1) one), replicate (m + 1) zero)
    (xrange 1 (i + 1)).

Definition ref_calc_k (s1 s2 : list sym) : num :=
  grid_get (ref_grid s1 s2 (length s1)).1 (length s1) (length s2).

(** The grid of the reference recurrence after the outer iterations 1 to [i],
    row by row: the rows up to [i] are filled, the others still hold 1.0. *)
Definition grid_upto (s1 s2 : list sym) (i : nat) : list (list num) :=
  (λ j, if decide (j ≤ i) then row_of (take j s1) s2
        else replicate (length s2 + 1) one) <$> seq 0 (length s1 + 1).

(** ** The call cut at a program point

    [before_outer s1 s2 i] runs [calc_k] up to the head of the outer iteration
    [i], [before_match s1 s2 i k] up to the head of iteration [k] of the first
    inner loop of the outer iteration [i], and [before_sum s1 s2 i k] up to the
    head of iteration [k] of its second inner loop.  They return the local
    variables [dp], [p] and [last]. *)

Definition before_outer (s1 s2 : value) (i : nat) : M (loc * loc) :=
  n ← len s1;
  m ← len s2;
  '(dp, p) ← init n m;
  for_each (xrange 1 i) (λ i' _, outer_step s1 s2 dp p m i') ();;
  mret (dp, p).

Definition before_match (s1 s2 : value) (i k : nat) : M (loc * loc * nat) :=
  m ← len s2;
  '(dp, p) ← before_outer s1 s2 i;
  setitem_float p 0 zero;;
  last ← for_each (xrange 1 k) (match_step s1 s2 dp p i) 0;
  mret (dp, p, last).

Definition before_sum (s1 s2 : value) (i k : nat) : M (loc * loc) :=
  m ← len s2;
  '(dp, p, _) ← before_match s1 s2 i (m + 1);
  for_each (xrange 1 k) (λ k' _, sum_step dp p i k') ();;
  mret (dp, p).

(** [dp[i][k]] *)
Definition read_dp (dp : loc) (i k : nat) : M num :=
  r ← getitem_row dp i;
  getitem_float r k.

(** The result of a call, without the store; [None] when it raised. *)
Definition value_of {A} (o : outcome A) : option A :=
  match o with
  | Ok a _ => Some a
  | Raise _ _ => None
  end.

(** The exception of a call; [None] when it returned. *)
Definition raised {A} (o : outcome A) : option exn :=
  match o with
  | Ok _ _ => None
  | Raise e _ => Some e
  end.

(** The three lists of a call are new objects, distinct from one another, and
    the arguments are sequences of the caller's store. *)
Record layout (h0 : heap) (a1 a2 : loc) (l1 l2 : list sym) (row dp p : loc) : Prop := {
  lay_s1 : h0 !! a1 = Some (OSeq l1);
  lay_s2 : h0 !! a2 = Some (OSeq l2);
  lay_row : h0 !! row = None;
  lay_dp : h0 !! dp = None;
  lay_p : h0 !! p = None;
  lay_row_dp : row ≠ dp;
  lay_row_p : row ≠ p;
  lay_dp_p : dp ≠ p;
}.

End Kernel.

Arguments object : clear implicits.
Arguments outcome : clear implicits.
Arguments M : clear implicits.
Arguments Ok {sym num A} a h.
Arguments Raise {sym num A} e h.

(** The store: a finite map from locations to objects. *)
Abbreviation heap sym num := (gmap loc (object sym num)).

(** ** Calls on strings, with binary64 floats *)

Definition str (s : string) : list ascii := String.list_ascii_of_string s.

(** A caller's store: the kernel instance and the two sequences. *)
Definition caller_heap {num} (s1 s2 : list ascii) : heap ascii num :=
  {[ 1%positive := OKern "sk"; 2%positive := OSeq s1; 3%positive := OSeq s2 ]}.

(** [StringKernel().calc_k(s1, s2)] *)
Definition similarity (s1 s2 : list ascii) : outcome ascii float float :=
  calc_k 1%positive (VRef 2%positive) (VRef 3%positive) (caller_heap s1 s2).

(** The same call with the two arguments exchanged. *)
Definition similarity_swapped (s1 s2 : list ascii) : outcome ascii float float :=
  calc_k 1%positive (VRef 3%positive) (VRef 2%positive) (caller_heap s1 s2).

(** Two strings whose scores exceed 2^53: 36 times "a" then "b", and "b" then
    24 times "a". *)
Definition long_left : list ascii := replicate 36 "a"%char ++ ["b"%char].
Definition long_right : list ascii := "b"%char :: replicate 24 "a"%char.

(** Another store, where "cat" and "car" are held by other objects. *)
Definition other_heap {num} : heap ascii num :=
  <[8%positive := OSeq (str "cat")]>
    (<[7%positive := OSeq (str "car")]> (caller_heap (str "dog") (str "cat"))).

(** A store with the kernel instance and four sequences. *)
Definition store4 {num} (s1 s2 s3 s4 : list ascii) : heap ascii num :=
  {[ 1%positive := OKern "sk"; 2%positive := OSeq s1; 3%positive := OSeq s2;
     4%positive := OSeq s3; 5%positive := OSeq s4 ]}.


(** ** Integers held by floats

    The scores are integers.  [canon p] is the binary64 number that holds the
    positive integer [p] when [p] has at most 53 binary digits: its mantissa is
    [p] shifted to 53 digits.  [exact x z] says that the float [x] is the
    integer [z], without rounding. *)

Local Open Scope Z_scope.

(** Number of binary digits. *)
Definition digits (p : positive) : Z := Zpos (digits2_pos p).

Definition canon (p : positive) : spec_float :=
  S754_finite false (Z.to_pos (Zpos p * 2 ^ (53 - digits p))) (digits p - 53).

Definition exact (x : float) (z : Z) : Prop :=
  match z with
  | Z0 => Prim2SF x = S754_zero false
  | Zpos p => Prim2SF x = canon p
  | Zneg _ => False
  end.


Local Close Scope Z_scope.

(** The score of two sequences when no addition rounds: the recurrence in
    integer arithmetic. *)
Definition exact_score {sym} `{EqDecision sym} (s1 s2 : list sym) : Z :=
  score (num := Z) s1 s2.

(** [d'] dominates [d] column by column, and no entry is negative. *)
Definition row_le (d d' : list Z) : Prop :=
  length d = length d' ∧ ∀ k, (0 ≤ get d k ≤ get d' k)%Z.

(** * Properties *)

Section Facts.

Context {sym : Type} `{EqDecision sym}.
Context {num : Type} `{Arith num}.

Implicit Types (h : heap sym num) (d pv : list num).

(** ** Running the monad *)

Lemma bind_ok {A B} (c : M sym num A) (k : A → M sym num B) h a h' :
  c h = Ok a h' → (c ≫= k) h = k a h'.
Proof. intros Hc. unfold mbind, M_bind, bind. by rewrite Hc. Qed.

(** A loop whose body does, on the store, what [f] does on a value [t]
    related to the store and the carried variables by [R]. *)
Lemma for_each_foldl {A S T} (xs : list A) (body : A → S → M sym num S)
    (f : T → A → T) (R : T → S → heap sym num → Prop) :
  (∀ x t s h, x ∈ xs → R t s h →
     ∃ s' h', body x s h = Ok s' h' ∧ R (f t x) s' h') →
  ∀ t s h, R t s h →
     ∃ s' h', for_each xs body s h = Ok s' h' ∧ R (foldl f t xs) s' h'.
Proof.
  induction xs as [|x xs IH]; intros Hbody t s h HR; simpl.
  - by exists s, h.
  - destruct (Hbody x t s h ltac:(constructor) HR) as (s1 & h1 & Hrun & HR1).
    erewrite bind_ok by exact Hrun.
    apply IH; [|done]. intros y ?????. apply Hbody; [by constructor|done].
Qed.

(** ** Lists *)

Lemma get_lookup d k : k < length d → d !! k = Some (get d k).
Proof.
  intros Hk. unfold get.
  destruct (lookup_lt_is_Some_2 d k Hk) as [x ->]. done.
Qed.

Lemma get_replicate k j (x : num) : k < j → get (replicate j x) k = x.
Proof. intros Hk. unfold get. by rewrite lookup_replicate_2. Qed.

Lemma get_insert_eq d k x : k < length d → get (<[k := x]> d) k = x.
Proof. intros Hk. unfold get. by rewrite list_lookup_insert_eq. Qed.

Lemma get_insert_ne d k j x : k ≠ j → get (<[k := x]> d) j = get d j.
Proof. intros Hk. unfold get. by rewrite list_lookup_insert_ne. Qed.

Lemma get_ext d d' :
  length d = length d' → (∀ k, k < length d → get d k = get d' k) → d = d'.
Proof.
  intros Hlen Hget. apply list_eq. intros k.
  destruct (decide (k < length d)) as [Hk|Hk].
  - rewrite !get_lookup by lia. f_equal. by apply Hget.
  - rewrite !lookup_ge_None_2 by lia. done.
Qed.

Lemma xrange_snoc k : xrange 1 (S k + 1) = xrange 1 (k + 1) ++ [S k].
Proof.
  unfold xrange. replace (S k + 1 - 1) with (S k) by lia.
  replace (k + 1 - 1) with k by lia. by rewrite seq_S.
Qed.

Lemma elem_of_xrange k lo hi : k ∈ xrange lo hi ↔ lo ≤ k < hi.
Proof. unfold xrange. rewrite elem_of_seq. lia. Qed.

Lemma foldl_ext_elem {T A} (f g : T → A → T) (l : list A) (t : T) :
  (∀ t x, x ∈ l → f t x = g t x) → foldl f t l = foldl g t l.
Proof.
  revert t. induction l as [|x l IH]; intros t Hfg; [done|].
  simpl. rewrite Hfg by constructor. apply IH.
  intros ???. apply Hfg. by constructor.
Qed.

(** A loop over the indices of a list is a loop over its elements. *)
Lemma foldl_indices {T} (f : T → sym → T) (pre l : list sym) (t : T) :
  foldl (λ t i, match (pre ++ l) !! (i - 1) with Some a => f t a | None => t end)
    t (seq (S (length pre)) (length l))
  = foldl f t l.
Proof.
  revert pre t. induction l as [|a l IH]; intros pre t; [done|].
  simpl. rewrite Nat.sub_0_r, list_lookup_middle by done.
  specialize (IH (pre ++ [a]) (f t a)).
  rewrite length_app, <- (assoc_L (++)) in IH. simpl in IH.
  replace (length pre + 1) with (S (length pre)) in IH by lia. done.
Qed.

(** ** The primitive operations on the store of a call *)

Section Prims.

Variables (h0 : heap sym num) (a1 a2 : loc) (l1 l2 : list sym) (row dp p : loc).
Hypothesis L : layout h0 a1 a2 l1 l2 row dp p.

Lemma call_heap_p n d pv : call_heap h0 row dp p n d pv !! p = Some (OFloats pv).
Proof. unfold call_heap. by rewrite lookup_insert_eq. Qed.

Lemma call_heap_dp n d pv :
  call_heap h0 row dp p n d pv !! dp = Some (ORows (replicate (n + 1) row)).
Proof.
  unfold call_heap. destruct L.
  rewrite lookup_insert_ne by done. by rewrite lookup_insert_eq.
Qed.

Lemma call_heap_row n d pv : call_heap h0 row dp p n d pv !! row = Some (OFloats d).
Proof.
  unfold call_heap. destruct L.
  rewrite !lookup_insert_ne by done. by rewrite lookup_insert_eq.
Qed.

Lemma call_heap_old n d pv l o :
  h0 !! l = Some o → call_heap h0 row dp p n d pv !! l = Some o.
Proof.
  intros Hl. unfold call_heap. destruct L.
  rewrite !lookup_insert_ne by congruence. done.
Qed.

Lemma call_heap_set_p n d pv pv' :
  <[p := OFloats pv']> (call_heap h0 row dp p n d pv) = call_heap h0 row dp p n d pv'.
Proof. unfold call_heap. by rewrite insert_insert_eq. Qed.

Lemma call_heap_set_row n d pv d' :
  <[row := OFloats d']> (call_heap h0 row dp p n d pv) = call_heap h0 row dp p n d' pv.
Proof.
  unfold call_heap. destruct L.
  rewrite (insert_insert_ne _ row p) by done.
  rewrite (insert_insert_ne _ row dp) by done.
  by rewrite insert_insert_eq.
Qed.

Lemma run_getitem_p n d pv k x :
  pv !! k = Some x →
  getitem_float p k (call_heap h0 row dp p n d pv) = Ok x (call_heap h0 row dp p n d pv).
Proof. intros Hk. unfold getitem_float. by rewrite call_heap_p, Hk. Qed.

Lemma run_getitem_d n d pv k x :
  d !! k = Some x →
  getitem_float row k (call_heap h0 row dp p n d pv) = Ok x (call_heap h0 row dp p n d pv).
Proof. intros Hk. unfold getitem_float. by rewrite call_heap_row, Hk. Qed.

Lemma run_getitem_row n d pv i :
  i ≤ n →
  getitem_row dp i (call_heap h0 row dp p n d pv) = Ok row (call_heap h0 row dp p n d pv).
Proof.
  intros Hi. unfold getitem_row. rewrite call_heap_dp.
  by rewrite lookup_replicate_2 by lia.
Qed.

Lemma run_getitem_s1 n d pv k a :
  l1 !! k = Some a →
  getitem_sym (VRef a1) k (call_heap h0 row dp p n d pv)
  = Ok a (call_heap h0 row dp p n d pv).
Proof.
  intros Hk. unfold getitem_sym.
  rewrite (call_heap_old _ _ _ a1 (OSeq l1)) by apply L. by rewrite Hk.
Qed.

Lemma run_getitem_s2 n d pv k a :
  l2 !! k = Some a →
  getitem_sym (VRef a2) k (call_heap h0 row dp p n d pv)
  = Ok a (call_heap h0 row dp p n d pv).
Proof.
  intros Hk. unfold getitem_sym.
  rewrite (call_heap_old _ _ _ a2 (OSeq l2)) by apply L. by rewrite Hk.
Qed.

Lemma run_setitem_p n d pv k x :
  k < length pv →
  setitem_float p k x (call_heap h0 row dp p n d pv)
  = Ok () (call_heap h0 row dp p n d (<[k := x]> pv)).
Proof.
  intros Hk. unfold setitem_float. rewrite call_heap_p.
  rewrite decide_True by done. by rewrite call_heap_set_p.
Qed.

Lemma run_setitem_d n d pv k x :
  k < length d →
  setitem_float row k x (call_heap h0 row dp p n d pv)
  = Ok () (call_heap h0 row dp p n (<[k := x]> d) pv).
Proof.
  intros Hk. unfold setitem_float. rewrite call_heap_row.
  rewrite decide_True by done. by rewrite call_heap_set_row.
Qed.

(** ** The loop bodies on the store of a call *)

Lemma length_match_pure a d st k : length (match_pure a l2 d st k).1 = length st.1.
Proof.
  unfold match_pure. case_bool_decide; simpl; by rewrite ?length_insert.
Qed.

Lemma length_match_loop a d st ks :
  length (foldl (match_pure a l2 d) st ks).1 = length st.1.
Proof.
  revert st. induction ks as [|k ks IH]; intros st; [done|].
  simpl. by rewrite IH, length_match_pure.
Qed.

Lemma length_sum_loop pv d ks : length (foldl (sum_pure pv) d ks) = length d.
Proof.
  revert d. induction ks as [|k ks IH]; intros d; [done|].
  simpl. rewrite IH. unfold sum_pure. by rewrite length_insert.
Qed.

Lemma length_outer_pure st a :
  length (outer_pure l2 st a).1 = length st.1 ∧
  length (outer_pure l2 st a).2 = length st.2.
Proof.
  unfold outer_pure. simpl. split.
  - apply length_sum_loop.
  - rewrite length_match_loop. simpl. by rewrite length_insert.
Qed.

Lemma length_outer_loop st l :
  length (foldl (outer_pure l2) st l).1 = length st.1 ∧
  length (foldl (outer_pure l2) st l).2 = length st.2.
Proof.
  revert st. induction l as [|a l IH]; intros st; [done|].
  simpl. destruct (IH (outer_pure l2 st a)) as [-> ->]. apply length_outer_pure.
Qed.

Lemma run_match_step n d pv i k last a :
  l1 !! (i - 1) = Some a → i - 1 ≤ n → 1 ≤ k ≤ length l2 →
  length pv = length l2 + 1 → length d = length l2 + 1 → last ≤ length l2 →
  match_step (VRef a1) (VRef a2) dp p i k last (call_heap h0 row dp p n d pv)
  = Ok (match_pure a l2 d (pv, last) k).2
       (call_heap h0 row dp p n d (match_pure a l2 d (pv, last) k).1).
Proof.
  intros Ha Hi Hk Hpv Hd Hlast. unfold match_step, match_pure. simpl.
  destruct (lookup_lt_is_Some_2 l2 (k - 1)) as [c Hc]; [lia|].
  erewrite bind_ok by (apply run_getitem_p, get_lookup; lia).
  erewrite bind_ok by (apply run_setitem_p; lia).
  erewrite bind_ok by (by apply run_getitem_s2).
  erewrite bind_ok by (by apply run_getitem_s1).
  rewrite Hc.
  destruct (decide (c = a)) as [->|Hne].
  - rewrite !bool_decide_eq_true_2 by done.
    erewrite bind_ok by (apply run_getitem_p, get_lookup; rewrite length_insert; lia).
    erewrite bind_ok by (by apply run_getitem_row).
    erewrite bind_ok by (apply run_getitem_d, get_lookup; lia).
    erewrite bind_ok by (apply run_setitem_p; rewrite length_insert; lia).
    done.
  - rewrite !bool_decide_eq_false_2 by congruence. done.
Qed.

Lemma run_sum_step n d pv i k :
  1 ≤ i ≤ n → k < length d → k < length pv →
  sum_step dp p i k (call_heap h0 row dp p n d pv)
  = Ok () (call_heap h0 row dp p n (sum_pure pv d k) pv).
Proof.
  intros Hi Hd Hpv. unfold sum_step, sum_pure.
  erewrite bind_ok by (apply run_getitem_row; lia).
  erewrite bind_ok by (by apply run_getitem_d, get_lookup).
  erewrite bind_ok by (by apply run_getitem_p, get_lookup).
  erewrite bind_ok by (apply run_getitem_row; lia).
  by apply run_setitem_d.
Qed.

(** The first inner loop, run up to (and without) its iteration [k]. *)
Lemma run_match_loop n d pv i k a :
  l1 !! (i - 1) = Some a → i - 1 ≤ n → k ≤ length l2 + 1 →
  length pv = length l2 + 1 → length d = length l2 + 1 →
  for_each (xrange 1 k) (match_step (VRef a1) (VRef a2) dp p i) 0
    (call_heap h0 row dp p n d pv)
  = Ok (foldl (match_pure a l2 d) (pv, 0) (xrange 1 k)).2
       (call_heap h0 row dp p n d (foldl (match_pure a l2 d) (pv, 0) (xrange 1 k)).1).
Proof.
  intros Ha Hi Hk Hpv Hd.
  pose (R := λ (t : list num * nat) (s : nat) (h : heap sym num),
          s = t.2 ∧ h = call_heap h0 row dp p n d t.1 ∧
          length t.1 = length l2 + 1 ∧ t.2 ≤ length l2).
  destruct (for_each_foldl (xrange 1 k) (match_step (VRef a1) (VRef a2) dp p i)
              (match_pure a l2 d) R) with (t := (pv, 0)) (s := 0)
              (h := call_heap h0 row dp p n d pv)
    as (s' & h' & Hrun & -> & -> & _).
  - intros j [pv' last'] s h Hj (-> & -> & Hlen & Hlast). simpl in *.
    apply elem_of_xrange in Hj.
    eexists _, _. split; [apply run_match_step; lia || done|].
    split; [done|]. split; [done|]. rewrite length_match_pure. split; [done|].
    unfold match_pure. case_bool_decide; simpl; lia.
  - unfold R. simpl. repeat split; [done|lia].
  - done.
Qed.

(** The second inner loop, run up to (and without) its iteration [k]. *)
Lemma run_sum_loop n d pv i k :
  1 ≤ i ≤ n → k ≤ length l2 + 1 →
  length pv = length l2 + 1 → length d = length l2 + 1 →
  for_each (xrange 1 k) (λ k' _, sum_step dp p i k') ()
    (call_heap h0 row dp p n d pv)
  = Ok () (call_heap h0 row dp p n (foldl (sum_pure pv) d (xrange 1 k)) pv).
Proof.
  intros Hi Hk Hpv Hd.
  pose (R := λ (t : list num) (s : ()) (h : heap sym num),
          h = call_heap h0 row dp p n t pv ∧ length t = length l2 + 1).
  destruct (for_each_foldl (xrange 1 k) (λ k' _, sum_step dp p i k')
              (sum_pure pv) R) with (t := d) (s := ())
              (h := call_heap h0 row dp p n d pv)
    as ([] & h' & Hrun & -> & _).
  - intros j d' [] h Hj (-> & Hlen). apply elem_of_xrange in Hj.
    eexists _, _. split; [apply run_sum_step; lia|].
    split; [done|]. unfold sum_pure. by rewrite length_insert.
  - by split.
  - done.
Qed.

Lemma run_outer_step n d pv i a :
  l1 !! (i - 1) = Some a → 1 ≤ i ≤ n →
  length pv = length l2 + 1 → length d = length l2 + 1 →
  outer_step (VRef a1) (VRef a2) dp p (length l2) i (call_heap h0 row dp p n d pv)
  = Ok () (call_heap h0 row dp p n (outer_pure l2 (d, pv) a).1
             (outer_pure l2 (d, pv) a).2).
Proof.
  intros Ha Hi Hpv Hd. unfold outer_step, outer_pure. simpl.
  erewrite bind_ok by (apply run_setitem_p; lia).
  erewrite bind_ok
    by (apply (run_match_loop _ _ _ _ _ a); rewrite ?length_insert; done || lia).
  apply run_sum_loop; rewrite ?length_match_loop; simpl;
    rewrite ?length_insert; done || lia.
Qed.

(** The outer loop, run up to (and without) its iteration [i]. *)
Lemma run_outer_loop n d pv i :
  n = length l1 → i ≤ n + 1 →
  length pv = length l2 + 1 → length d = length l2 + 1 →
  for_each (xrange 1 i) (λ i' _, outer_step (VRef a1) (VRef a2) dp p (length l2) i') ()
    (call_heap h0 row dp p n d pv)
  = Ok () (call_heap h0 row dp p n
             (foldl (outer_pure l2) (d, pv) (take (i - 1) l1)).1
             (foldl (outer_pure l2) (d, pv) (take (i - 1) l1)).2).
Proof.
  intros Hn Hi Hpv Hd.
  pose (f := λ (t : list num * list num) (j : nat),
          match l1 !! (j - 1) with Some a => outer_pure l2 t a | None => t end).
  pose (R := λ (t : list num * list num) (s : ()) (h : heap sym num),
          h = call_heap h0 row dp p n t.1 t.2 ∧
          length t.1 = length l2 + 1 ∧ length t.2 = length l2 + 1).
  destruct (for_each_foldl (xrange 1 i)
              (λ i' _, outer_step (VRef a1) (VRef a2) dp p (length l2) i') f R)
    with (t := (d, pv)) (s := ()) (h := call_heap h0 row dp p n d pv)
    as ([] & h' & Hrun & -> & _).
  - intros j [d' pv'] [] h Hj (-> & Hd' & Hpv'). simpl in *.
    apply elem_of_xrange in Hj.
    destruct (lookup_lt_is_Some_2 l1 (j - 1)) as [a Ha]; [lia|].
    eexists _, _. split; [apply (run_outer_step _ _ _ _ a); done || lia|].
    unfold f. rewrite Ha. split; [done|].
    destruct (length_outer_pure (d', pv') a) as [-> ->]. done.
  - by repeat split.
  - rewrite Hrun. f_equal.
    assert (foldl f (d, pv) (xrange 1 i)
            = foldl (outer_pure l2) (d, pv) (take (i - 1) l1)) as ->; [|done].
    rewrite <- (foldl_indices (outer_pure l2) [] (take (i - 1) l1)).
    simpl. rewrite length_take_le by lia. unfold xrange.
    apply foldl_ext_elem. intros t j Hj%elem_of_seq.
    unfold f. rewrite lookup_take_lt by lia. done.
Qed.

End Prims.

(** ** The run of a call *)

Lemma run_len h a l : h !! a = Some (OSeq l) → len (VRef a) h = Ok (length l) h.
Proof. intros Ha. unfold len. by rewrite Ha. Qed.

Lemma run_init h0 a1 a2 l1 l2 n m :
  h0 !! a1 = Some (OSeq l1) → h0 !! a2 = Some (OSeq l2) →
  ∃ row dp p, layout h0 a1 a2 l1 l2 row dp p ∧
    init n m h0
    = Ok (dp, p) (call_heap h0 row dp p n (replicate (m + 1) one) (replicate (m + 1) zero)).
Proof.
  intros H1 H2.
  set (row := fresh (dom h0)).
  set (h1 := <[row := OFloats (replicate (m + 1) one)]> h0).
  set (dp := fresh (dom h1)).
  set (h2 := <[dp := ORows (replicate (n + 1) row)]> h1).
  set (p := fresh (dom h2)).
  assert (h0 !! row = None) as Hrow by apply not_elem_of_dom, is_fresh.
  assert (h1 !! dp = None) as Hdp by apply not_elem_of_dom, is_fresh.
  assert (h2 !! p = None) as Hp by apply not_elem_of_dom, is_fresh.
  assert (row ≠ dp) as Hne1.
  { intros E. rewrite <- E in Hdp. unfold h1 in Hdp.
    by rewrite lookup_insert_eq in Hdp. }
  assert (dp ≠ p) as Hne2.
  { intros E. rewrite <- E in Hp. unfold h2 in Hp.
    by rewrite lookup_insert_eq in Hp. }
  assert (row ≠ p) as Hne3.
  { intros E. rewrite <- E in Hp. unfold h2, h1 in Hp.
    rewrite lookup_insert_ne in Hp by done. by rewrite lookup_insert_eq in Hp. }
  exists row, dp, p. split.
  - split; try done.
    + unfold h1 in Hdp. by rewrite lookup_insert_ne in Hdp.
    + unfold h2, h1 in Hp. by rewrite !lookup_insert_ne in Hp.
  - done.
Qed.

(** The lists after the outer iterations 1 to [i]. *)
Lemma run_before_outer h0 a1 a2 l1 l2 i :
  h0 !! a1 = Some (OSeq l1) → h0 !! a2 = Some (OSeq l2) → i ≤ length l1 + 1 →
  ∃ row dp p, layout h0 a1 a2 l1 l2 row dp p ∧
    before_outer (VRef a1) (VRef a2) i h0
    = Ok (dp, p) (call_heap h0 row dp p (length l1)
                    (rows_pure (take (i - 1) l1) l2).1
                    (rows_pure (take (i - 1) l1) l2).2).
Proof.
  intros H1 H2 Hi.
  destruct (run_init h0 a1 a2 l1 l2 (length l1) (length l2) H1 H2)
    as (row & dp & p & L & Hinit).
  exists row, dp, p. split; [done|]. unfold before_outer.
  erewrite bind_ok by (by apply run_len).
  erewrite bind_ok by (by apply run_len).
  erewrite bind_ok by exact Hinit. simpl.
  erewrite bind_ok
    by (eapply run_outer_loop; [exact L|..]; rewrite ?length_replicate; done || lia).
  done.
Qed.

Lemma length_rows_pure (l1 l2 : list sym) :
  length (rows_pure l1 l2).1 = length l2 + 1 ∧
  length (rows_pure l1 l2).2 = length l2 + 1.
Proof.
  unfold rows_pure.
  destruct (length_outer_loop l2
              (replicate (length l2 + 1) one, replicate (length l2 + 1) zero) l1)
    as [-> ->].
  simpl. by rewrite !length_replicate.
Qed.

(** On two sequences, [calc_k] returns [score], and leaves the caller's store
    with three more objects. *)
Lemma calc_k_run h0 self a1 a2 l1 l2 :
  h0 !! a1 = Some (OSeq l1) → h0 !! a2 = Some (OSeq l2) →
  ∃ row dp p, layout h0 a1 a2 l1 l2 row dp p ∧
    calc_k self (VRef a1) (VRef a2) h0
    = Ok (score l1 l2)
         (call_heap h0 row dp p (length l1) (rows_pure l1 l2).1 (rows_pure l1 l2).2).
Proof.
  intros H1 H2.
  destruct (run_init h0 a1 a2 l1 l2 (length l1) (length l2) H1 H2)
    as (row & dp & p & L & Hinit).
  exists row, dp, p. split; [done|]. unfold calc_k.
  erewrite bind_ok by (by apply run_len).
  erewrite bind_ok by (by apply run_len).
  erewrite bind_ok by exact Hinit. simpl.
  erewrite bind_ok
    by (eapply run_outer_loop; [exact L|..]; rewrite ?length_replicate; done || lia).
  replace (length l1 + 1 - 1) with (length l1) by lia.
  rewrite firstn_all. fold (rows_pure l1 l2).
  destruct (length_rows_pure l1 l2) as [Hd Hpv].
  erewrite bind_ok by (by eapply run_getitem_row).
  unfold score. eapply run_getitem_d; [done|]. apply get_lookup. lia.
Qed.

(** ** What the loops compute *)

Lemma get_fmap_seq (f : nat → num) j k : k < j → get (f <$> seq 0 j) k = f k.
Proof.
  intros Hk. unfold get. rewrite list_lookup_fmap, lookup_seq_lt by done. done.
Qed.

Lemma acc_ext a (l2 : list sym) (f g : nat → num) k :
  (∀ j, j < k → f j = g j) → acc a l2 f k = acc a l2 g k.
Proof.
  induction k as [|k IH]; intros Hfg; [done|].
  simpl. rewrite IH by (intros; apply Hfg; lia). rewrite Hfg by lia. done.
Qed.

(** After the iterations 1 to [k] of the first inner loop, [p[j]] is [acc j]
    up to column [k], and [p[last]] is [p[k]]. *)
Lemma match_loop_spec a (l2 : list sym) d pv k :
  length pv = length l2 + 1 → get pv 0 = zero → k ≤ length l2 →
  let st := foldl (match_pure a l2 d) (pv, 0) (xrange 1 (k + 1)) in
  (∀ j, j ≤ k → get st.1 j = acc a l2 (get d) j) ∧
  (∀ j, k < j → get st.1 j = get pv j) ∧
  st.2 ≤ k ∧ acc a l2 (get d) st.2 = acc a l2 (get d) k.
Proof.
  intros Hpv H0. induction k as [|k IH]; intros Hk; cbv zeta.
  - simpl. repeat split; try done. intros j Hj. replace j with 0 by lia. done.
  - rewrite xrange_snoc, foldl_app. cbv zeta in IH.
    destruct IH as (Hle & Hgt & Hlast & Hacc); [lia|].
    pose proof (length_match_loop l2 a d (pv, 0) (xrange 1 (k + 1))) as Hlen.
    destruct (foldl (match_pure a l2 d) (pv, 0) (xrange 1 (k + 1))) as [pvk lastk].
    simpl in *. unfold match_pure. simpl. rewrite Nat.sub_0_r.
    assert (get pvk lastk = acc a l2 (get d) k) as Hread
      by (rewrite Hle by lia; done).
    case_bool_decide as Hm; simpl.
    + split; [|split; [|split]].
      * intros j Hj. destruct (decide (j = S k)) as [->|Hne].
        -- rewrite get_insert_eq by (rewrite length_insert; lia).
           rewrite get_insert_ne by lia. rewrite Hread. simpl.
           by rewrite bool_decide_eq_true_2.
        -- rewrite !get_insert_ne by lia. apply Hle. lia.
      * intros j Hj. rewrite !get_insert_ne by lia. apply Hgt. lia.
      * lia.
      * by rewrite bool_decide_eq_true_2.
    + split; [|split; [|split]].
      * intros j Hj. destruct (decide (j = S k)) as [->|Hne].
        -- rewrite get_insert_eq by lia. rewrite Hread. simpl.
           by rewrite bool_decide_eq_false_2.
        -- rewrite !get_insert_ne by lia. apply Hle. lia.
      * intros j Hj. rewrite !get_insert_ne by lia. apply Hgt. lia.
      * lia.
      * done.
Qed.

(** After the iterations 1 to [k] of the second inner loop, the columns 1 to
    [k] of the shared row have received their [p[j]], each once. *)
Lemma sum_loop_spec pv d k j :
  k < length d →
  get (foldl (sum_pure pv) d (xrange 1 (k + 1))) j
  = if decide (1 ≤ j ≤ k) then add (get d j) (get pv j) else get d j.
Proof.
  induction k as [|k IH]; intros Hk.
  - simpl. case_decide; [lia|done].
  - rewrite xrange_snoc, foldl_app. simpl. unfold sum_pure at 1.
    destruct (decide (j = S k)) as [->|Hne].
    + rewrite get_insert_eq by (rewrite length_sum_loop; lia).
      rewrite IH by lia. rewrite decide_False by lia.
      rewrite decide_True by lia. done.
    + rewrite get_insert_ne by lia. rewrite IH by lia.
      repeat case_decide; done || lia.
Qed.

Lemma get_next_row a (l2 : list sym) d j :
  j < length d →
  get (next_row a l2 d) j
  = match j with 0 => get d 0 | S _ => add (get d j) (acc a l2 (get d) j) end.
Proof.
  intros Hj. unfold next_row, get at 1.
  rewrite list_lookup_imap, (get_lookup d j) by done. simpl. by destruct j.
Qed.

Lemma length_next_row a (l2 : list sym) d : length (next_row a l2 d) = length d.
Proof. unfold next_row. apply length_imap. Qed.

Lemma outer_pure_spec a (l2 : list sym) d pv :
  length d = length l2 + 1 → length pv = length l2 + 1 →
  outer_pure l2 (d, pv) a
  = (next_row a l2 d, acc a l2 (get d) <$> seq 0 (length l2 + 1)).
Proof.
  intros Hd Hpv. unfold outer_pure. simpl.
  destruct (match_loop_spec a l2 d (<[0 := zero]> pv) (length l2))
    as (Hle & _ & _ & _).
  { by rewrite length_insert. }
  { apply get_insert_eq. lia. }
  { done. }
  simpl in Hle.
  assert ((foldl (match_pure a l2 d) (<[0 := zero]> pv, 0) (xrange 1 (length l2 + 1))).1
          = acc a l2 (get d) <$> seq 0 (length l2 + 1)) as ->.
  { apply get_ext.
    - rewrite length_match_loop, length_fmap, length_seq. simpl.
      by rewrite length_insert.
    - intros k Hk. rewrite length_match_loop in Hk. simpl in Hk.
      rewrite length_insert in Hk.
      rewrite get_fmap_seq by lia. apply Hle. lia. }
  f_equal. apply get_ext.
  - by rewrite length_sum_loop, length_next_row.
  - intros k Hk. rewrite length_sum_loop in Hk.
    rewrite sum_loop_spec by lia. rewrite get_next_row by lia.
    destruct k as [|k].
    + rewrite decide_False by lia. done.
    + rewrite decide_True by lia. rewrite get_fmap_seq by lia. done.
Qed.

Lemma length_row_of (l1 l2 : list sym) : length (row_of l1 l2) = length l2 + 1.
Proof.
  unfold row_of. generalize (length_replicate (length l2 + 1) (one : num)).
  generalize (replicate (length l2 + 1) (one : num)).
  induction l1 as [|a l1 IH]; intros d Hd; [done|].
  simpl. apply IH. by rewrite length_next_row.
Qed.

Lemma rows_pure_row_of (l1 l2 : list sym) : (rows_pure l1 l2).1 = row_of l1 l2.
Proof.
  unfold rows_pure, row_of.
  generalize (length_replicate (length l2 + 1) (one : num)).
  generalize (length_replicate (length l2 + 1) (zero : num)).
  generalize (replicate (length l2 + 1) (one : num)).
  generalize (replicate (length l2 + 1) (zero : num)).
  induction l1 as [|a l1 IH]; intros pv d Hpv Hd; [done|].
  simpl. rewrite outer_pure_spec by done.
  apply IH; [|by rewrite length_next_row].
  by rewrite length_fmap, length_seq.
Qed.

Lemma score_row_of (l1 l2 : list sym) : score l1 l2 = get (row_of l1 l2) (length l2).
Proof. unfold score. by rewrite rows_pure_row_of. Qed.

Lemma row_of_snoc (l1 l2 : list sym) a :
  row_of (l1 ++ [a]) l2 = next_row a l2 (row_of l1 l2).
Proof. unfold row_of. by rewrite foldl_app. Qed.

Lemma get_row_of_0 (l1 l2 : list sym) : get (row_of l1 l2) 0 = one.
Proof.
  induction l1 as [|a l1 IH] using rev_ind.
  - unfold row_of. simpl. apply get_replicate. lia.
  - rewrite row_of_snoc, get_next_row by (rewrite length_row_of; lia). done.
Qed.

(** ** The reference recurrence *)

Lemma ref_match_pure (l1 l2 : list sym) g i a d st k :
  l1 !! (i - 1) = Some a → g !! (i - 1) = Some d →
  ref_match l1 l2 g i st k = match_pure a l2 d st k.
Proof.
  intros Ha Hd. unfold ref_match, match_pure, grid_get. by rewrite Ha, Hd.
Qed.

(** The second inner loop of the reference writes the row [i] only, and reads
    the row [i - 1], which it leaves as it is. *)
Lemma ref_sum_loop pv i (g : list (list num)) ks r d :
  1 ≤ i → g !! i = Some r → g !! (i - 1) = Some d →
  foldl (ref_sum pv i) g ks
  = <[i := foldl (λ r k, <[k := add (get d k) (get pv k)]> r) r ks]> g.
Proof.
  intros Hi. revert g r. induction ks as [|k ks IH]; intros g r Hr Hd; simpl.
  - by rewrite list_insert_id.
  - assert (i < length g) as Hlen by (by eapply lookup_lt_Some).
    unfold ref_sum at 2, grid_get. rewrite Hr, Hd. simpl.
    erewrite IH.
    + by rewrite list_insert_insert_eq.
    + by rewrite list_lookup_insert_eq.
    + rewrite list_lookup_insert_ne by lia. done.
Qed.

Lemma length_copy_loop pv d r ks :
  length (foldl (λ r k, <[k := add (get d k) (get pv k)]> r) r ks) = length r.
Proof.
  revert r. induction ks as [|x ks IH]; intros r; [done|].
  simpl. by rewrite IH, length_insert.
Qed.

Lemma copy_loop_spec pv d r k j :
  k < length r →
  get (foldl (λ r k, <[k := add (get d k) (get pv k)]> r) r (xrange 1 (k + 1))) j
  = if decide (1 ≤ j ≤ k) then add (get d j) (get pv j) else get r j.
Proof.
  induction k as [|k IH]; intros Hk.
  - simpl. case_decide; [lia|done].
  - rewrite xrange_snoc, foldl_app. simpl.
    destruct (decide (j = S k)) as [->|Hne].
    + rewrite get_insert_eq by (rewrite length_copy_loop; lia).
      rewrite decide_True by lia. done.
    + rewrite get_insert_ne by lia. rewrite IH by lia.
      repeat case_decide; done || lia.
Qed.

Lemma rows_pure_snoc (l1 l2 : list sym) a :
  rows_pure (l1 ++ [a]) l2 = outer_pure l2 (rows_pure l1 l2) a.
Proof. unfold rows_pure. by rewrite foldl_app. Qed.

Lemma lookup_grid_upto (l1 l2 : list sym) i j :
  j ≤ length l1 →
  grid_upto l1 l2 i !! j
  = Some (if decide (j ≤ i) then row_of (take j l1) l2
          else replicate (length l2 + 1) one).
Proof.
  intros Hj. unfold grid_upto.
  rewrite list_lookup_fmap, lookup_seq_lt by lia. done.
Qed.

Lemma length_grid_upto (l1 l2 : list sym) i :
  length (grid_upto l1 l2 i) = length l1 + 1.
Proof. unfold grid_upto. by rewrite length_fmap, length_seq. Qed.

Lemma ref_grid_spec (l1 l2 : list sym) i :
  i ≤ length l1 →
  ref_grid l1 l2 i = (grid_upto l1 l2 i, (rows_pure (take i l1) l2).2).
Proof.
  induction i as [|i IH]; intros Hi.
  - unfold ref_grid. simpl. f_equal.
    apply list_eq. intros j. destruct (decide (j ≤ length l1)) as [Hj|Hj].
    + rewrite lookup_grid_upto, lookup_replicate_2 by lia.
      case_decide; [|done]. by replace j with 0 by lia.
    + rewrite !lookup_ge_None_2; [done|..].
      * rewrite length_grid_upto. lia.
      * rewrite length_replicate. lia.
  - unfold ref_grid in *. rewrite xrange_snoc, foldl_app, IH by lia. simpl.
    destruct (lookup_lt_is_Some_2 l1 i) as [a Ha]; [lia|].
    rewrite (take_S_r _ _ _ Ha), rows_pure_snoc.
    pose proof (rows_pure_row_of (take i l1) l2) as Hrow.
    destruct (length_rows_pure (take i l1) l2) as [Hd Hpv].
    destruct (rows_pure (take i l1) l2) as [d pv]. simpl in *. subst d.
    assert (grid_upto l1 l2 i !! i = Some (row_of (take i l1) l2)) as Hgi.
    { rewrite lookup_grid_upto by lia. by rewrite decide_True. }
    assert (grid_upto l1 l2 i !! S i = Some (replicate (length l2 + 1) one)) as HgS.
    { rewrite lookup_grid_upto by lia. by rewrite decide_False by lia. }
    unfold ref_outer. simpl.
    rewrite (foldl_ext_elem _ (match_pure a l2 (row_of (take i l1) l2)));
      [|intros; apply ref_match_pure; simpl; rewrite ?Nat.sub_0_r; done].
    pose proof (outer_pure_spec a l2 (row_of (take i l1) l2) pv Hd Hpv) as Hout.
    unfold outer_pure in Hout. simpl in Hout.
    injection Hout as Hsum Hmatch. unfold outer_pure. simpl.
    rewrite Hmatch. f_equal.
    erewrite ref_sum_loop; [|lia|exact HgS|simpl; by rewrite ?Nat.sub_0_r].
    apply list_eq. intros j. destruct (decide (j ≤ length l1)) as [Hj|Hj].
    + rewrite lookup_grid_upto by lia.
      destruct (decide (j = S i)) as [->|Hne].
      * rewrite list_lookup_insert_eq by (rewrite length_grid_upto; lia).
        rewrite decide_True by lia. f_equal.
        rewrite (take_S_r _ _ _ Ha), row_of_snoc.
        apply get_ext.
        -- by rewrite length_copy_loop, length_next_row, length_row_of,
             length_replicate.
        -- intros k Hk. rewrite length_copy_loop, length_replicate in Hk.
           rewrite copy_loop_spec by (rewrite length_replicate; lia).
           rewrite get_next_row by (rewrite length_row_of; lia).
           destruct k as [|k].
           ++ rewrite decide_False by lia.
              rewrite get_replicate by lia. by rewrite get_row_of_0.
           ++ rewrite decide_True by lia. by rewrite get_fmap_seq by lia.
      * rewrite list_lookup_insert_ne by lia. rewrite lookup_grid_upto by lia.
        repeat case_decide; done || lia.
    + rewrite !lookup_ge_None_2; [done|..].
      * rewrite length_grid_upto. lia.
      * rewrite length_insert, length_grid_upto. lia.
Qed.

Lemma ref_calc_k_score (l1 l2 : list sym) : ref_calc_k l1 l2 = score l1 l2.
Proof.
  unfold ref_calc_k. rewrite ref_grid_spec by done. simpl.
  unfold grid_get. rewrite lookup_grid_upto by done.
  rewrite decide_True by done. simpl.
  by rewrite firstn_all, score_row_of.
Qed.

(** ** The table of scores

    [get (row_of (take i l1) l2) k] is the entry [dp[i][k]] of the recurrence:
    the score of the first [i] symbols of [l1] against the first [k] of
    [l2]. *)

Lemma row_of_nil (l2 : list sym) k : k ≤ length l2 → get (row_of [] l2) k = one.
Proof. intros Hk. unfold row_of. simpl. apply get_replicate. lia. Qed.

Lemma row_of_step (l1 l2 : list sym) i a k :
  l1 !! i = Some a → k ≤ length l2 →
  get (row_of (take (S i) l1) l2) k
  = match k with
    | 0 => one
    | S _ => add (get (row_of (take i l1) l2) k)
                 (acc a l2 (get (row_of (take i l1) l2)) k)
    end.
Proof.
  intros Ha Hk. rewrite (take_S_r _ _ _ Ha), row_of_snoc.
  rewrite get_next_row by (rewrite length_row_of; lia).
  destruct k; [apply get_row_of_0|done].
Qed.




(** ** Symmetry, when additions are exact *)

Section Exact.

Hypothesis add_assoc : ∀ x y z : num, add x (add y z) = add (add x y) z.
Hypothesis add_comm : ∀ x y : num, add x y = add y x.
Hypothesis add_zero_l : ∀ x : num, add zero x = x.

Lemma add_zero_r (x : num) : add x zero = x.
Proof. by rewrite add_comm. Qed.

Lemma add_swap (t q a u : num) : add (add t q) (add a u) = add (add t a) (add q u).
Proof.
  rewrite <- !add_assoc. f_equal.
  rewrite !add_assoc. f_equal. apply add_comm.
Qed.

Lemma row_of_step_add (l1 l2 : list sym) i a k :
  l1 !! i = Some a → k ≤ length l2 →
  get (row_of (take (S i) l1) l2) k
  = add (get (row_of (take i l1) l2) k) (acc a l2 (get (row_of (take i l1) l2)) k).
Proof.
  intros Ha Hk. rewrite (row_of_step _ _ _ a) by done.
  destruct k; [|done]. simpl. by rewrite get_row_of_0, add_zero_r.
Qed.

(** The recurrence along the other sequence: the column [k + 1] is the column
    [k] plus the accumulator of the symbol [l2[k]] over [l1]. *)
Lemma col_of_step (l1 l2 : list sym) i k b :
  l2 !! k = Some b → i ≤ length l1 →
  get (row_of (take i l1) l2) (S k)
  = add (get (row_of (take i l1) l2) k)
        (acc b l1 (λ i', get (row_of (take i' l1) l2) k) i).
Proof.
  intros Hb. assert (k < length l2) as Hk by (by eapply lookup_lt_Some).
  induction i as [|i IH]; intros Hi.
  - simpl. rewrite !row_of_nil by lia. by rewrite add_zero_r.
  - destruct (lookup_lt_is_Some_2 l1 i) as [a Ha]; [lia|].
    rewrite !(row_of_step_add _ _ _ a) by (done || lia).
    rewrite IH by lia. simpl. rewrite Hb, Ha.
    destruct (decide (a = b)) as [->|Hne].
    + rewrite !bool_decide_eq_true_2 by done. apply add_swap.
    + rewrite !bool_decide_eq_false_2 by congruence.
      rewrite <- !add_assoc. f_equal. apply add_comm.
Qed.

Lemma table_sym (l1 l2 : list sym) i k :
  i ≤ length l1 → k ≤ length l2 →
  get (row_of (take i l1) l2) k = get (row_of (take k l2) l1) i.
Proof.
  intros Hi. revert i Hi. induction k as [|k IH]; intros i Hi Hk.
  - by rewrite get_row_of_0, row_of_nil.
  - destruct (lookup_lt_is_Some_2 l2 k) as [b Hb]; [lia|].
    rewrite (col_of_step _ _ _ _ b), (row_of_step_add _ _ _ b) by done.
    rewrite IH by lia. f_equal.
    apply acc_ext. intros j Hj. apply IH; lia.
Qed.

Lemma score_sym (l1 l2 : list sym) : score l1 l2 = score l2 l1.
Proof.
  rewrite !score_row_of.
  rewrite <- (firstn_all l1) at 1. rewrite table_sym by done.
  by rewrite firstn_all.
Qed.

End Exact.

End Facts.

(** ** Order, in exact arithmetic *)

Section Order.

Context {sym : Type} `{EqDecision sym}.

Local Open Scope Z_scope.

Lemma row_le_trans (d1 d2 d3 : list Z) : row_le d1 d2 → row_le d2 d3 → row_le d1 d3.
Proof.
  intros [Hl1 H1] [Hl2 H2]. split; [congruence|].
  intros k. specialize (H1 k). specialize (H2 k). lia.
Qed.

Lemma acc_mono (a : sym) (l2 : list sym) (f g : nat → Z) k :
  (∀ j, 0 ≤ f j ≤ g j) → 0 ≤ acc a l2 f k ≤ acc a l2 g k.
Proof.
  intros Hfg. induction k as [|k IH]; simpl; [done|].
  specialize (Hfg k). case_bool_decide; lia.
Qed.

Lemma next_row_mono (a : sym) (l2 : list sym) (d d' : list Z) :
  row_le d d' → row_le (next_row a l2 d) (next_row a l2 d').
Proof.
  intros [Hlen Hle]. split; [by rewrite !length_next_row|].
  intros k. destruct (decide (k < length d)%nat) as [Hk|Hk].
  - rewrite !get_next_row by lia. destruct k; [apply Hle|].
    pose proof (acc_mono a l2 (get d) (get d') (S k) Hle).
    specialize (Hle (S k)). unfold add. simpl in *. lia.
  - unfold get. rewrite !lookup_ge_None_2 by (rewrite length_next_row; lia).
    done.
Qed.

Lemma next_row_incr (a : sym) (l2 : list sym) (d : list Z) :
  row_le d d → row_le d (next_row a l2 d).
Proof.
  intros [_ Hle]. split; [by rewrite length_next_row|].
  intros k. destruct (decide (k < length d)%nat) as [Hk|Hk].
  - rewrite get_next_row by lia. destruct k; [apply Hle|].
    pose proof (acc_mono a l2 (get d) (get d) (S k) Hle).
    specialize (Hle (S k)). unfold add. simpl in *. lia.
  - unfold get. rewrite !lookup_ge_None_2 by (rewrite ?length_next_row; lia).
    done.
Qed.

(** More symbols in the first sequence give a row that dominates. *)
Lemma rows_sublist_mono (l l' l2 : list sym) :
  l `sublist_of` l' →
  ∀ d d' : list Z, row_le d d' → row_le d' d' →
    row_le (foldl (λ d a, next_row a l2 d) d l) (foldl (λ d a, next_row a l2 d) d' l').
Proof.
  induction 1 as [|x l l' _ IH|x l l' _ IH]; intros d d' Hle Hd'; simpl.
  - done.
  - apply IH; by apply next_row_mono.
  - apply IH.
    + eapply row_le_trans; [exact Hle|]. by apply next_row_incr.
    + by apply next_row_mono.
Qed.

Lemma score_sublist_mono (l l' l2 : list sym) :
  l `sublist_of` l' → score (num := Z) l l2 ≤ score l' l2.
Proof.
  intros Hsub. rewrite !score_row_of. unfold row_of.
  assert (row_le (replicate (length l2 + 1) 1) (replicate (length l2 + 1) 1)) as Hinit.
  { split; [done|]. intros k. unfold get.
    destruct (replicate _ _ !! k) as [x|] eqn:E; simpl; [|done].
    apply lookup_replicate in E as [-> _]. done. }
  apply (rows_sublist_mono l l' l2 Hsub _ _ Hinit Hinit).
Qed.

End Order.

(** ** Binary64 additions keep the sign *)

Section Floats.

Local Open Scope float_scope.









End Floats.

(** ** Binary64 additions of integers below 2^53 are exact *)

Section Exactness.

Local Open Scope Z_scope.

Lemma digits_bounds p : 2 ^ (digits p - 1) <= Zpos p < 2 ^ digits p.
Proof.
  unfold digits. induction p as [p IH|p IH|]; simpl digits2_pos.
  - rewrite Pos2Z.inj_succ. replace (Z.succ (Zpos (digits2_pos p)) - 1) with (Z.succ (Zpos (digits2_pos p) - 1)) by lia.
    rewrite !Z.pow_succ_r by lia. lia.
  - rewrite Pos2Z.inj_succ. replace (Z.succ (Zpos (digits2_pos p)) - 1) with (Z.succ (Zpos (digits2_pos p) - 1)) by lia.
    rewrite !Z.pow_succ_r by lia. lia.
  - simpl. lia.
Qed.

Lemma digits_pos p : 1 <= digits p.
Proof. unfold digits. lia. Qed.

Lemma digits_unique p k : 2 ^ (k - 1) <= Zpos p < 2 ^ k -> digits p = k.
Proof.
  intros [Hlo Hhi]. pose proof (digits_bounds p) as [Hlo' Hhi'].
  pose proof (digits_pos p).
  assert (0 < k).
  { destruct (Z.lt_ge_cases 0 k) as [|Hk]; [lia|].
    assert (2 ^ k <= 2 ^ 0) by (apply Z.pow_le_mono_r; lia). simpl in *. lia. }
  destruct (Z.lt_trichotomy (digits p) k) as [Hlt|[Heq|Hgt]]; [|exact Heq|].
  - assert (2 ^ digits p <= 2 ^ (k - 1)) by (apply Z.pow_le_mono_r; lia). lia.
  - assert (2 ^ k <= 2 ^ (digits p - 1)) by (apply Z.pow_le_mono_r; lia). lia.
Qed.

Lemma digits_shift p q n : 0 <= n -> Zpos q = Zpos p * 2 ^ n -> digits q = digits p + n.
Proof.
  intros Hn Hq. apply digits_unique. pose proof (digits_bounds p) as [Hlo Hhi].
  pose proof (digits_pos p).
  replace (digits p + n - 1) with (digits p - 1 + n) by lia.
  rewrite !Z.pow_add_r by lia. rewrite Hq.
  assert (0 < 2 ^ n) by (apply Z.pow_pos_nonneg; lia). nia.
Qed.

Lemma digits_mono p q : Zpos p <= Zpos q -> digits p <= digits q.
Proof.
  intros Hpq. pose proof (digits_bounds p) as [Hlo Hhi].
  pose proof (digits_bounds q) as [Hlo' Hhi']. pose proof (digits_pos p).
  destruct (Z.le_gt_cases (digits p) (digits q)) as [|Hgt]; [assumption|].
  assert (2 ^ digits q <= 2 ^ (digits p - 1)) by (apply Z.pow_le_mono_r; lia). lia.
Qed.

Lemma digits_le_53 p : Zpos p < 2 ^ 53 -> digits p <= 53.
Proof.
  intros Hp. pose proof (digits_bounds p) as [Hlo Hhi]. pose proof (digits_pos p).
  destruct (Z.le_gt_cases (digits p) 53) as [|Hgt]; [assumption|].
  assert (2 ^ 53 <= 2 ^ (digits p - 1)) by (apply Z.pow_le_mono_r; lia). lia.
Qed.

Lemma iter_xO m k : Zpos (Pos.iter xO m k) = Zpos m * 2 ^ Zpos k.
Proof.
  induction k as [|k IH] using Pos.peano_ind.
  - change (Pos.iter xO m 1) with (xO m). change (2 ^ 1) with 2. lia.
  - rewrite Pos.iter_succ, Pos2Z.inj_succ, Z.pow_succ_r by lia.
    rewrite Pos2Z.inj_xO, IH. lia.
Qed.

Lemma shl_align_fst m e e' :
  e' <= e -> Zpos (fst (shl_align m e e')) = Zpos m * 2 ^ (e - e').
Proof.
  intros He. unfold shl_align. destruct (e' - e) as [|k|k] eqn:E; simpl.
  - replace (e - e') with 0 by lia. rewrite Z.pow_0_r. lia.
  - lia.
  - rewrite iter_xO. replace (e - e') with (Zpos k) by lia. reflexivity.
Qed.

(** Shifting right a mantissa that ends with [n] zeros is exact. *)
Lemma shr_exact n : forall q m,
  Zpos q = Zpos m * 2 ^ Zpos n ->
  SpecFloat.iter_pos shr_1 n (Build_shr_record (Zpos q) false false)
  = Build_shr_record (Zpos m) false false.
Proof.
  induction n as [n IH|n IH|]; intros q m Hq; simpl.
  - rewrite (Pos2Z.inj_xI n) in Hq.
    replace (2 * Zpos n + 1) with (Zpos n + Zpos n + 1) in Hq by lia.
    rewrite !Z.pow_add_r in Hq by lia. change (2 ^ 1) with 2 in Hq.
    destruct q as [q|q|]; try lia. simpl.
    assert (0 < 2 ^ Zpos n) by (apply Z.pow_pos_nonneg; lia).
    rewrite (IH q (Z.to_pos (Zpos m * 2 ^ Zpos n))).
    + apply IH. rewrite Z2Pos.id by nia. reflexivity.
    + rewrite Z2Pos.id by nia. nia.
  - rewrite (Pos2Z.inj_xO n) in Hq.
    replace (2 * Zpos n) with (Zpos n + Zpos n) in Hq by lia.
    rewrite !Z.pow_add_r in Hq by lia.
    assert (0 < 2 ^ Zpos n) by (apply Z.pow_pos_nonneg; lia).
    rewrite (IH q (Z.to_pos (Zpos m * 2 ^ Zpos n))).
    + apply IH. rewrite Z2Pos.id by nia. reflexivity.
    + rewrite Z2Pos.id by nia. nia.
  - change (2 ^ 1) with 2 in Hq. destruct q as [q|q|]; try lia.
    simpl. repeat f_equal. lia.
Qed.

Lemma shl_align_id m e e' : e <= e' -> shl_align m e e' = (m, e).
Proof.
  intros He. unfold shl_align. destruct (e' - e) as [|k|k] eqn:E; try reflexivity. lia.
Qed.

Lemma mant_eq p : digits p <= 53 ->
  Zpos (Z.to_pos (Zpos p * 2 ^ (53 - digits p))) = Zpos p * 2 ^ (53 - digits p).
Proof.
  intros Hd. apply Z2Pos.id.
  assert (0 < 2 ^ (53 - digits p)) by (apply Z.pow_pos_nonneg; lia). nia.
Qed.

(** Rounding a mantissa of 53 digits followed by [n] zeros is exact. *)
Lemma round_shift ms mc ez n :
  0 <= n -> Zpos ms = Zpos mc * 2 ^ n -> digits mc = 53 ->
  -1074 <= ez -> ez + n <= 971 ->
  binary_round_aux prec emax false (Zpos ms) ez loc_Exact = S754_finite false mc (ez + n).
Proof.
  intros Hn Hms Hmc Hlo Hhi.
  pose proof (digits_shift mc ms n Hn Hms) as HdS. rewrite Hmc in HdS.
  unfold binary_round_aux, shr_fexp, fexp, emin. simpl Zdigits2. fold (digits ms).
  rewrite HdS. unfold prec, emax.
  replace (Z.max (53 + n + ez - 53) (3 - 1024 - 53) - ez) with n by lia.
  assert (shr (shr_record_of_loc (Zpos ms) loc_Exact) ez n
          = (Build_shr_record (Zpos mc) false false, ez + n)) as ->.
  { unfold shr. simpl shr_record_of_loc. destruct n as [|k|k]; [| |lia].
    - rewrite Z.pow_0_r in Hms. f_equal; [|lia]. f_equal. lia.
    - f_equal. apply shr_exact. exact Hms. }
  simpl shr_m. simpl loc_of_shr_record. simpl round_nearest_even.
  simpl Zdigits2. fold (digits mc). rewrite Hmc.
  replace (Z.max (53 + (ez + n) - 53) (3 - 1024 - 53) - (ez + n)) with 0 by lia.
  cbn [shr shr_record_of_loc shr_m]. change (1024 - 53) with 971.
  destruct (Z.leb_spec (ez + n) 971); [reflexivity|lia].
Qed.

Lemma canon_add p q :
  Zpos p + Zpos q < 2 ^ 53 ->
  SFadd prec emax (canon p) (canon q) = canon (p + q).
Proof.
  intros Hsum.
  assert (digits p <= 53) as Hp by (apply digits_le_53; lia).
  assert (digits q <= 53) as Hq by (apply digits_le_53; lia).
  assert (digits (p + q) <= 53) as Hpq by (apply digits_le_53; lia).
  assert (digits p <= digits (p + q)) as Hp' by (apply digits_mono; lia).
  assert (digits q <= digits (p + q)) as Hq' by (apply digits_mono; lia).
  pose proof (digits_pos p). pose proof (digits_pos q).
  unfold canon at 1 2. unfold SFadd, cond_Zopp.
  set (Mp := Z.to_pos (Zpos p * 2 ^ (53 - digits p))).
  set (Mq := Z.to_pos (Zpos q * 2 ^ (53 - digits q))).
  set (ez := Z.min (digits p - 53) (digits q - 53)).
  set (dmin := Z.min (digits p) (digits q)).
  assert (ez = dmin - 53) as Hez by (unfold ez, dmin; lia).
  assert (Zpos (fst (shl_align Mp (digits p - 53) ez)) = Zpos p * 2 ^ (53 - dmin)) as H1.
  { rewrite shl_align_fst by lia. unfold Mp. rewrite mant_eq by lia.
    rewrite <- Z.mul_assoc, <- Z.pow_add_r by lia. f_equal. f_equal. lia. }
  assert (Zpos (fst (shl_align Mq (digits q - 53) ez)) = Zpos q * 2 ^ (53 - dmin)) as H2.
  { rewrite shl_align_fst by lia. unfold Mq. rewrite mant_eq by lia.
    rewrite <- Z.mul_assoc, <- Z.pow_add_r by lia. f_equal. f_equal. lia. }
  change (Zpos (fst (shl_align Mp (digits p - 53) ez))
          + Zpos (fst (shl_align Mq (digits q - 53) ez)))
    with (Zpos (fst (shl_align Mp (digits p - 53) ez)
                + fst (shl_align Mq (digits q - 53) ez))).
  set (ms := (fst (shl_align Mp (digits p - 53) ez)
             + fst (shl_align Mq (digits q - 53) ez))%positive).
  assert (Zpos ms = Zpos (p + q) * 2 ^ (53 - dmin)) as Hms.
  { unfold ms. rewrite Pos2Z.inj_add, H1, H2, Pos2Z.inj_add. lia. }
  assert (dmin <= 53) by (unfold dmin; lia).
  assert (digits ms = digits (p + q) + (53 - dmin)) as HdS
    by (apply digits_shift; [lia|exact Hms]).
  unfold binary_normalize, binary_round.
  fold (digits ms). rewrite HdS.
  assert (fexp prec emax (digits (p + q) + (53 - dmin) + ez) = digits (p + q) - 53) as ->.
  { unfold fexp, emin, prec, emax. pose proof (digits_pos (p + q)). lia. }
  rewrite shl_align_id by (unfold dmin in *; lia).
  unfold canon.
  set (mc := Z.to_pos (Zpos (p + q) * 2 ^ (53 - digits (p + q)))).
  replace (digits (p + q) - 53) with (ez + (digits (p + q) - dmin)) by lia.
  apply round_shift.
  - unfold dmin. lia.
  - rewrite Hms. unfold mc. rewrite mant_eq by lia.
    rewrite <- Z.mul_assoc, <- Z.pow_add_r by (unfold dmin; lia). f_equal. f_equal. lia.
  - rewrite (digits_shift (p + q) mc (53 - digits (p + q)));
      [lia|lia|unfold mc; apply mant_eq; lia].
  - unfold dmin in *. lia.
  - lia.
Qed.

Lemma exact_zero : exact 0%float 0.
Proof. reflexivity. Qed.

Lemma exact_one : exact 1%float 1.
Proof. vm_compute. reflexivity. Qed.

Lemma exact_add x y a b :
  exact x a -> exact y b -> a + b < 2 ^ 53 -> exact (x + y)%float (a + b).
Proof.
  intros Hx Hy Hab. unfold exact in *.
  destruct a as [|p|p], b as [|q|q]; try contradiction; simpl Z.add;
    rewrite add_spec, Hx, Hy; unfold SF64add.
  - reflexivity.
  - reflexivity.
  - reflexivity.
  - apply canon_add. exact Hab.
Qed.

Lemma exact_inj x y a : exact x a -> exact y a -> x = y.
Proof.
  intros Hx Hy. apply Prim2SF_inj. unfold exact in *.
  destruct a; try contradiction; congruence.
Qed.

Lemma exact_leb x y a b :
  exact x a -> exact y b -> a <= b -> b < 2 ^ 53 -> (x <=? y)%float = true.
Proof.
  intros Hx Hy Hab Hb. rewrite leb_spec. unfold exact in *.
  destruct a as [|p|p], b as [|q|q]; try contradiction; try lia;
    rewrite Hx, Hy; try reflexivity.
  unfold canon, SFleb, SFcompare.
  pose proof (digits_mono p q Hab) as Hd.
  assert (digits q <= 53) as Hq by (apply digits_le_53; lia).
  destruct (Z.compare_spec (digits p - 53) (digits q - 53)) as [E|E|E];
    [|reflexivity|lia].
  assert (digits p = digits q) as Hpq by lia. rewrite Hpq.
  change (Pos.compare_cont Eq ?u ?v) with (Pos.compare u v).
  destruct (Pos.compare_spec (Z.to_pos (Zpos p * 2 ^ (53 - digits q)))
              (Z.to_pos (Zpos q * 2 ^ (53 - digits q)))) as [_|_|Hgt];
    [reflexivity|reflexivity|].
  apply Pos2Z.pos_lt_pos in Hgt.
  rewrite mant_eq in Hgt by exact Hq.
  rewrite <- Hpq in Hgt at 2. rewrite mant_eq in Hgt by lia. rewrite Hpq in Hgt.
  assert (0 < 2 ^ (53 - digits q)) by (apply Z.pow_pos_nonneg; lia). nia.
Qed.

End Exactness.

(** ** The store inside the loops *)

Section Cuts.

Context {sym : Type} `{EqDecision sym}.
Context {num : Type} `{Arith num}.

(** At the head of the iteration [k] of the first inner loop of the outer
    iteration [i], the shared row is the one the outer iteration [i - 1] left. *)
Lemma run_before_match (h0 : heap sym num) a1 a2 (l1 l2 : list sym) i k a :
  h0 !! a1 = Some (OSeq l1) → h0 !! a2 = Some (OSeq l2) →
  l1 !! (i - 1) = Some a → 1 ≤ i → k ≤ length l2 + 1 →
  ∃ row dp p last pv, layout h0 a1 a2 l1 l2 row dp p ∧
    before_match (VRef a1) (VRef a2) i k h0
    = Ok (dp, p, last)
         (call_heap h0 row dp p (length l1) (row_of (take (i - 1) l1) l2) pv) ∧
    length pv = length l2 + 1.
Proof.
  intros H1 H2 Ha Hi Hk.
  assert (i - 1 < length l1) as Hlt by (by eapply lookup_lt_Some).
  destruct (run_before_outer h0 a1 a2 l1 l2 i H1 H2) as (row & dp & p & L & Hrun);
    [lia|].
  destruct (length_rows_pure (take (i - 1) l1) l2) as [Hd Hpv].
  rewrite rows_pure_row_of in Hrun, Hd.
  eexists row, dp, p, _, _. split; [done|]. unfold before_match.
  erewrite bind_ok by (by apply run_len).
  erewrite bind_ok by exact Hrun. simpl.
  erewrite bind_ok by (apply run_setitem_p; lia).
  erewrite bind_ok
    by (eapply (run_match_loop _ _ _ _ _ _ _ _ L _ _ _ _ _ a);
        rewrite ?length_insert; done || lia).
  split; [done|]. rewrite length_match_loop. simpl. by rewrite length_insert.
Qed.

(** At the head of the iteration [k] of the second inner loop, the columns
    before [k] of the shared row have been written. *)
Lemma run_before_sum (h0 : heap sym num) a1 a2 (l1 l2 : list sym) i k a :
  h0 !! a1 = Some (OSeq l1) → h0 !! a2 = Some (OSeq l2) →
  l1 !! (i - 1) = Some a → 1 ≤ i → k ≤ length l2 + 1 →
  ∃ row dp p pv, layout h0 a1 a2 l1 l2 row dp p ∧
    before_sum (VRef a1) (VRef a2) i k h0
    = Ok (dp, p)
         (call_heap h0 row dp p (length l1)
            (foldl (sum_pure pv) (row_of (take (i - 1) l1) l2) (xrange 1 k)) pv) ∧
    length pv = length l2 + 1.
Proof.
  intros H1 H2 Ha Hi Hk.
  assert (i - 1 < length l1) as Hlt by (by eapply lookup_lt_Some).
  destruct (run_before_match h0 a1 a2 l1 l2 i (length l2 + 1) a)
    as (row & dp & p & last & pv & L & Hrun & Hpv); [done..|].
  exists row, dp, p, pv. split; [done|]. unfold before_sum.
  erewrite bind_ok by (by apply run_len).
  erewrite bind_ok by exact Hrun. simpl.
  erewrite bind_ok
    by (eapply run_sum_loop; [exact L|..]; rewrite ?length_row_of; done || lia).
  done.
Qed.

(** In the first inner loop every line of [dp] is the one shared row, and that
    row is the row [i - 1] of the reference grid as the reference has it
    before its iteration [i]. *)
Lemma shared_row_at_match (h : heap sym num) a1 a2 (l1 l2 : list sym) i k :
  h !! a1 = Some (OSeq l1) → h !! a2 = Some (OSeq l2) →
  1 ≤ i ≤ length l1 → 1 ≤ k ≤ length l2 →
  ∃ row dp p last d h1,
    before_match (VRef a1) (VRef a2) i k h = Ok (dp, p, last) h1 ∧
    h1 !! dp = Some (ORows (replicate (length l1 + 1) row)) ∧
    h1 !! row = Some (OFloats d) ∧
    (∀ j c, j ≤ length l1 → c ≤ length l2 → read_dp dp j c h1 = Ok (get d c) h1) ∧
    (ref_grid l1 l2 (i - 1)).1 !! (i - 1) = Some d.
Proof.
  intros H1 H2 Hi Hk.
  destruct (lookup_lt_is_Some_2 l1 (i - 1)) as [a Ha]; [lia|].
  destruct (run_before_match h a1 a2 l1 l2 i k a)
    as (row & dp & p & last & pv & L & Hrun & Hpv); [done || lia..|].
  eexists row, dp, p, last, _, _. split; [exact Hrun|].
  split; [by eapply call_heap_dp|]. split; [by eapply call_heap_row|]. split.
  - intros j c Hj Hc. unfold read_dp.
    erewrite bind_ok by (by eapply run_getitem_row).
    eapply run_getitem_d; [done|]. apply get_lookup. rewrite length_row_of. lia.
  - rewrite ref_grid_spec by lia. simpl. rewrite lookup_grid_upto by lia.
    by rewrite decide_True.
Qed.

(** In the second inner loop every line of [dp] is the one shared row, and the
    assignment [dp[i][k] = dp[i-1][k] + p[k]] is read back on every line. *)
Lemma shared_row_at_sum (h : heap sym num) a1 a2 (l1 l2 : list sym) i k :
  h !! a1 = Some (OSeq l1) → h !! a2 = Some (OSeq l2) →
  1 ≤ i ≤ length l1 → 1 ≤ k ≤ length l2 →
  ∃ row dp p d pv h2 h3,
    before_sum (VRef a1) (VRef a2) i k h = Ok (dp, p) h2 ∧
    h2 !! dp = Some (ORows (replicate (length l1 + 1) row)) ∧
    h2 !! row = Some (OFloats d) ∧ h2 !! p = Some (OFloats pv) ∧
    sum_step dp p i k h2 = Ok () h3 ∧
    h3 !! dp = Some (ORows (replicate (length l1 + 1) row)) ∧
    ∀ j, j ≤ length l1 → read_dp dp j k h3 = Ok (add (get d k) (get pv k)) h3.
Proof.
  intros H1 H2 Hi Hk.
  destruct (lookup_lt_is_Some_2 l1 (i - 1)) as [a Ha]; [lia|].
  destruct (run_before_sum h a1 a2 l1 l2 i k a)
    as (row & dp & p & pv & L & Hrun & Hpv); [done || lia..|].
  eexists row, dp, p, _, pv, _, _. split; [exact Hrun|].
  assert (length (foldl (sum_pure pv) (row_of (take (i - 1) l1) l2) (xrange 1 k))
          = length l2 + 1) as Hd by (by rewrite length_sum_loop, length_row_of).
  split; [by eapply call_heap_dp|]. split; [by eapply call_heap_row|].
  split; [by apply call_heap_p|].
  split; [eapply run_sum_step; [exact L|..]; lia|].
  split; [by eapply call_heap_dp|].
  intros j Hj. unfold read_dp.
  erewrite bind_ok by (by eapply run_getitem_row).
  eapply run_getitem_d; [done|]. unfold sum_pure at 1.
  rewrite list_lookup_insert_eq by lia. done.
Qed.

End Cuts.

(** ** The float scores are the integer scores, below 2^53 *)

Section Simulation.

Context {sym : Type} `{EqDecision sym}.

Local Open Scope Z_scope.

Lemma row_le_refl_row_of (l1 l2 : list sym) :
  row_le (row_of (num := Z) l1 l2) (row_of l1 l2).
Proof.
  unfold row_of.
  assert (row_le (replicate (length l2 + 1) 1) (replicate (length l2 + 1) 1)) as Hinit.
  { split; [done|]. intros k. unfold get.
    destruct (replicate _ _ !! k) as [x|] eqn:E; simpl; [|done].
    apply lookup_replicate in E as [-> _]. done. }
  by apply (rows_sublist_mono l1 l1 l2).
Qed.

(** The entries grow along a row. *)
Lemma row_of_mono_col (l1 l2 : list sym) k :
  (k < length l2)%nat →
  get (row_of (num := Z) l1 l2) k ≤ get (row_of l1 l2) (S k).
Proof.
  intros Hk. destruct (lookup_lt_is_Some_2 l2 k Hk) as [b Hb].
  pose proof (col_of_step (sym := sym) (num := Z)) as Hcol.
  specialize (Hcol ltac:(intros; unfold add; simpl; lia)
                ltac:(intros; unfold add; simpl; lia)
                ltac:(intros; unfold add, zero; simpl; lia)
                l1 l2 (length l1) k b Hb ltac:(done)).
  rewrite firstn_all in Hcol. rewrite Hcol.
  pose proof (acc_mono b l1 (λ i', get (row_of (take i' l1) l2) k)
                (λ i', get (row_of (take i' l1) l2) k) (length l1)) as Hacc.
  unfold add at 1. simpl.
  assert (∀ j, 0 ≤ get (row_of (num := Z) (take j l1) l2) k
               ≤ get (row_of (take j l1) l2) k) as Hnn.
  { intros j. destruct (row_le_refl_row_of (take j l1) l2) as [_ Hle]. apply Hle. }
  specialize (Hacc Hnn). lia.
Qed.

Lemma row_of_mono_cols (l1 l2 : list sym) j k :
  (j ≤ k ≤ length l2)%nat →
  get (row_of (num := Z) l1 l2) j ≤ get (row_of l1 l2) k.
Proof.
  induction k as [|k IH]; intros Hjk.
  - replace j with 0%nat by lia. done.
  - destruct (decide (j = S k)) as [->|Hne]; [done|].
    etrans; [apply IH; lia|]. apply row_of_mono_col. lia.
Qed.

Lemma row_of_le_score (l1 l2 : list sym) k :
  get (row_of (num := Z) l1 l2) k ≤ exact_score l1 l2.
Proof.
  unfold exact_score. rewrite score_row_of.
  destruct (decide (k ≤ length l2)%nat) as [Hk|Hk].
  - apply row_of_mono_cols. lia.
  - destruct (row_le_refl_row_of l1 l2) as [_ Hnn].
    unfold get at 1. rewrite lookup_ge_None_2 by (rewrite length_row_of; lia).
    apply Hnn.
Qed.

Lemma acc_exact a (l2 : list sym) (f : nat → float) (g : nat → Z) k :
  (∀ j, exact (f j) (g j) ∧ 0 ≤ g j) → acc a l2 g k < 2 ^ 53 →
  exact (acc a l2 f k) (acc a l2 g k).
Proof.
  intros Hfg. induction k as [|k IH]; intros Hk; [apply exact_zero|].
  simpl in *. destruct (Hfg k) as [Hex Hnn].
  pose proof (acc_mono a l2 g g k ltac:(intros j; destruct (Hfg j); lia)) as Hacc.
  case_bool_decide.
  - apply exact_add; [apply IH; lia|done|done].
  - by apply IH.
Qed.

Lemma next_row_exact a (l2 : list sym) (d : list float) (dz : list Z) :
  length d = length dz →
  (∀ k, exact (get d k) (get dz k) ∧ 0 ≤ get dz k) →
  (∀ k, get (next_row a l2 dz) k < 2 ^ 53) →
  ∀ k, exact (get (next_row a l2 d) k) (get (next_row a l2 dz) k).
Proof.
  intros Hlen Hd Hb k. destruct (decide (k < length d)%nat) as [Hk|Hk].
  - specialize (Hb k).
    rewrite (get_next_row (num := Z)), (get_next_row (num := float)) by lia.
    destruct k as [|k]; [apply Hd|].
    assert (get (next_row a l2 dz) (S k) = get dz (S k) + acc a l2 (get dz) (S k))
      as Hsum by (by rewrite get_next_row by lia).
    rewrite Hsum in Hb.
    destruct (Hd (S k)) as [Hex Hnn].
    pose proof (acc_mono a l2 (get dz) (get dz) (S k)
                  ltac:(intros j; destruct (Hd j); lia)) as Hacc.
    apply exact_add; [done| |done].
    apply acc_exact; [done|lia].
  - unfold get. rewrite !lookup_ge_None_2 by (rewrite length_next_row; lia).
    apply exact_zero.
Qed.

Lemma row_of_exact (l1 l2 : list sym) :
  exact_score l1 l2 < 2 ^ 53 →
  ∀ k, exact (get (row_of (num := float) l1 l2) k) (get (row_of (num := Z) l1 l2) k).
Proof.
  intros Hb.
  assert (∀ k, get (row_of (num := Z) l1 l2) k < 2 ^ 53) as Hrow.
  { intros k. pose proof (row_of_le_score l1 l2 k). lia. }
  clear Hb. induction l1 as [|a l1 IH] using rev_ind; intros k.
  - unfold row_of, get. simpl.
    destruct (decide (k < length l2 + 1)%nat).
    + rewrite !lookup_replicate_2 by done. apply exact_one.
    + rewrite !lookup_ge_None_2 by (rewrite length_replicate; lia). apply exact_zero.
  - rewrite !row_of_snoc in *.
    destruct (row_le_refl_row_of l1 l2) as [_ Hnn].
    destruct (next_row_incr a l2 _ (row_le_refl_row_of l1 l2)) as [_ Hincr].
    apply next_row_exact.
    + by rewrite !length_row_of.
    + intros j. split; [|apply Hnn]. apply IH.
      intros j'. specialize (Hincr j'). specialize (Hrow j'). lia.
    + done.
Qed.

Lemma score_exact (l1 l2 : list sym) :
  exact_score l1 l2 < 2 ^ 53 →
  exact (score (num := float) l1 l2) (exact_score l1 l2).
Proof.
  intros Hb. unfold exact_score. rewrite !score_row_of. by apply row_of_exact.
Qed.

Lemma exact_score_sym (l1 l2 : list sym) : exact_score l1 l2 = exact_score l2 l1.
Proof.
  apply (score_sym (num := Z)); intros; unfold add, zero; simpl; lia.
Qed.

End Simulation.

(** * The stated properties *)

Section Claims.

Context {sym : Type} `{EqDecision sym}.
Context {num : Type} `{Arith num}.

Implicit Types (h : heap sym num).

(** C1: for every pair of sequences [s1] (length n) and [s2] (length m),
    [calc_k(s1, s2)] returns the entry [dp[n][m]] of the reference recurrence,
    whose grid has independent rows all initialised to 1.0, whose first inner
    loop sets [p[k] = p[last]] and, on a match, [p[k] = p[last] + dp[i-1][k-1]]
    and [last = k], and whose second inner loop sets
    [dp[i][k] = dp[i-1][k] + p[k]]. *)
Theorem calc_k_reference h self a1 a2 (l1 l2 : list sym) :
  h !! a1 = Some (OSeq l1) → h !! a2 = Some (OSeq l2) →
  value_of (calc_k self (VRef a1) (VRef a2) h) = Some (ref_calc_k l1 l2).
Proof.
  intros H1 H2.
  destruct (calc_k_run h self a1 a2 l1 l2 H1 H2) as (row & dp & p & _ & ->).
  simpl. by rewrite ref_calc_k_score.
Qed.

(** C2, as amended: for every sequence [s], [calc_k] applied to the empty
    sequence and [s] returns 1.0, and [calc_k] applied to [s] and the empty
    sequence returns 1.0. *)
Theorem calc_k_empty h self a1 a2 (l : list sym) :
  h !! a1 = Some (OSeq []) → h !! a2 = Some (OSeq l) →
  value_of (calc_k self (VRef a1) (VRef a2) h) = Some one ∧
  value_of (calc_k self (VRef a2) (VRef a1) h) = Some one.
Proof.
  intros H1 H2. split.
  - destruct (calc_k_run h self a1 a2 [] l H1 H2) as (row & dp & p & _ & ->).
    simpl. f_equal. rewrite score_row_of. by apply row_of_nil.
  - destruct (calc_k_run h self a2 a1 l [] H2 H1) as (row & dp & p & _ & ->).
    simpl. f_equal. rewrite score_row_of. apply get_row_of_0.
Qed.

(** C4, as amended: when [calc_k] is called with [None] for a sequence, the
    first [len] raises a [TypeError] and the store is left as it was; on two
    sequences it raises no error. *)
Theorem calc_k_errors h self a1 a2 (l1 l2 : list sym) :
  h !! a1 = Some (OSeq l1) → h !! a2 = Some (OSeq l2) →
  calc_k self VNone (VRef a2) h = Raise TypeError h ∧
  calc_k self (VRef a1) VNone h = Raise TypeError h ∧
  calc_k self VNone VNone h = Raise TypeError h ∧
  raised (calc_k self (VRef a1) (VRef a2) h) = None.
Proof.
  intros H1 H2. repeat split.
  - unfold calc_k. by erewrite bind_ok by (by apply run_len).
  - destruct (calc_k_run h self a1 a2 l1 l2 H1 H2) as (row & dp & p & _ & ->).
    done.
Qed.

(** C8: [calc_k] is deterministic, and its result depends on the two input
    sequences only: two calls on sequences with the same contents return the
    same result, whatever the store they run in (hence whatever calls came
    before), the objects that hold the sequences, and the kernel instance. *)
Theorem calc_k_deterministic h h' self self' a1 a2 b1 b2 (l1 l2 : list sym) :
  h !! a1 = Some (OSeq l1) → h !! a2 = Some (OSeq l2) →
  h' !! b1 = Some (OSeq l1) → h' !! b2 = Some (OSeq l2) →
  ∃ v, value_of (calc_k self (VRef a1) (VRef a2) h) = Some v ∧
       value_of (calc_k self' (VRef b1) (VRef b2) h') = Some v.
Proof.
  intros H1 H2 H1' H2'. exists (score l1 l2).
  destruct (calc_k_run h self a1 a2 l1 l2 H1 H2) as (row & dp & p & _ & ->).
  destruct (calc_k_run h' self' b1 b2 l1 l2 H1' H2') as (row' & dp' & p' & _ & ->).
  done.
Qed.

(** C9: [calc_k] has no observable side effect: every object of the caller's
    store (the input sequences and the kernel instance among them) is in the
    final store as it was, the three lists of the call are new objects, and a
    later call returns in the final store what it returns in the initial
    one. *)
Theorem calc_k_frame h self a1 a2 (l1 l2 : list sym) :
  h !! a1 = Some (OSeq l1) → h !! a2 = Some (OSeq l2) →
  ∃ v h' row dp p d pv,
    calc_k self (VRef a1) (VRef a2) h = Ok v h' ∧
    h ⊆ h' ∧
    h !! row = None ∧ h !! dp = None ∧ h !! p = None ∧
    h' = <[p := OFloats pv]> (<[dp := ORows (replicate (length l1 + 1) row)]>
           (<[row := OFloats d]> h)) ∧
    ∀ self' b1 b2 (k1 k2 : list sym),
      h !! b1 = Some (OSeq k1) → h !! b2 = Some (OSeq k2) →
      value_of (calc_k self' (VRef b1) (VRef b2) h')
      = value_of (calc_k self' (VRef b1) (VRef b2) h).
Proof.
  intros H1 H2.
  destruct (calc_k_run h self a1 a2 l1 l2 H1 H2) as (row & dp & p & L & Hrun).
  eexists _, _, row, dp, p, _, _. split; [exact Hrun|].
  assert (h ⊆ call_heap h row dp p (length l1) (rows_pure l1 l2).1 (rows_pure l1 l2).2)
    as Hsub.
  { apply map_subseteq_spec. intros l o Hl. by apply (call_heap_old _ _ _ _ _ _ _ _ L). }
  split; [exact Hsub|]. destruct L. repeat split; try done.
  intros self' b1 b2 k1 k2 Hb1 Hb2.
  destruct (calc_k_run h self' b1 b2 k1 k2 Hb1 Hb2) as (? & ? & ? & _ & ->).
  edestruct (calc_k_run (call_heap h row dp p (length l1) (rows_pure l1 l2).1
                           (rows_pure l1 l2).2) self' b1 b2 k1 k2)
    as (? & ? & ? & _ & ->); [by eapply lookup_weaken..|done].
Qed.

(** C10, as amended: in every call all the n+1 lines of [dp] are the same list
    object, so that at every point of the two inner loops [dp[j][c]] is, for
    every line [j], the entry [c] of that one list, and the assignment
    [dp[i][k] = dp[i-1][k] + p[k]] is read back on every line; the reads of
    [dp[i-1][k-1]] in the outer iteration [i] all come before its writes, and
    the shared list holds there the row [i-1] of the reference recurrence. *)
Theorem calc_k_shared_row h a1 a2 (l1 l2 : list sym) i k :
  h !! a1 = Some (OSeq l1) → h !! a2 = Some (OSeq l2) →
  1 ≤ i ≤ length l1 → 1 ≤ k ≤ length l2 →
  (∃ row dp p last d h1,
     before_match (VRef a1) (VRef a2) i k h = Ok (dp, p, last) h1 ∧
     h1 !! dp = Some (ORows (replicate (length l1 + 1) row)) ∧
     h1 !! row = Some (OFloats d) ∧
     (∀ j c, j ≤ length l1 → c ≤ length l2 → read_dp dp j c h1 = Ok (get d c) h1) ∧
     (ref_grid l1 l2 (i - 1)).1 !! (i - 1) = Some d) ∧
  (∃ row dp p d pv h2 h3,
     before_sum (VRef a1) (VRef a2) i k h = Ok (dp, p) h2 ∧
     h2 !! dp = Some (ORows (replicate (length l1 + 1) row)) ∧
     h2 !! row = Some (OFloats d) ∧ h2 !! p = Some (OFloats pv) ∧
     sum_step dp p i k h2 = Ok () h3 ∧
     h3 !! dp = Some (ORows (replicate (length l1 + 1) row)) ∧
     ∀ j, j ≤ length l1 → read_dp dp j k h3 = Ok (add (get d k) (get pv k)) h3).
Proof.
  intros H1 H2 Hi Hk. split.
  - by apply shared_row_at_match.
  - by eapply shared_row_at_sum.
Qed.

End Claims.

Section FloatClaims.

Context {sym : Type} `{EqDecision sym}.


(** The exact score is what [calc_k] returns in integer arithmetic. *)
Lemma calc_k_exact_score (h : heap sym Z) self a1 a2 (l1 l2 : list sym) :
  h !! a1 = Some (OSeq l1) → h !! a2 = Some (OSeq l2) →
  value_of (calc_k self (VRef a1) (VRef a2) h) = Some (exact_score l1 l2).
Proof.
  intros H1 H2.
  by destruct (calc_k_run h self a1 a2 l1 l2 H1 H2) as (? & ? & ? & _ & ->).
Qed.

(** C3, as amended: for every pair of sequences [s1] and [s2] whose exact
    score is below 2^53, [calc_k(s1, s2) == calc_k(s2, s1)], and both are the
    exact score: no addition rounds. *)
Theorem calc_k_symmetric (h : heap sym float) self a1 a2 (l1 l2 : list sym) :
  h !! a1 = Some (OSeq l1) → h !! a2 = Some (OSeq l2) →
  (exact_score l1 l2 < 2 ^ 53)%Z →
  ∃ v, value_of (calc_k self (VRef a1) (VRef a2) h) = Some v ∧
       value_of (calc_k self (VRef a2) (VRef a1) h) = Some v ∧
       exact v (exact_score l1 l2).
Proof.
  intros H1 H2 Hb. exists (score l1 l2).
  destruct (calc_k_run h self a1 a2 l1 l2 H1 H2) as (? & ? & ? & _ & ->).
  destruct (calc_k_run h self a2 a1 l2 l1 H2 H1) as (? & ? & ? & _ & ->).
  simpl. pose proof (score_exact l1 l2 Hb) as Hex.
  split; [done|]. split; [|done]. f_equal.
  apply (exact_inj _ _ (exact_score l1 l2)); [|done].
  rewrite exact_score_sym. apply score_exact. by rewrite <- exact_score_sym.
Qed.


End FloatClaims.

(** ** Calls on strings *)

(** C6: [calc_k("aaa", "aaa")], which is 20.0, is strictly greater than
    [calc_k("aaa", "aab")], which is 10.0. *)
Theorem similarity_aaa_aab :
  value_of (similarity (str "aaa") (str "aaa")) = Some 20%float ∧
  value_of (similarity (str "aaa") (str "aab")) = Some 10%float ∧
  (10 <? 20)%float = true.
Proof. repeat split; vm_compute; reflexivity. Qed.

(** The scenario of the specification: "abc" against itself. *)
Example similarity_abc_abc : value_of (similarity (str "abc") (str "abc")) = Some 8%float.
Proof. vm_compute. reflexivity. Qed.

(** The reference recurrence on "cat" and "car", by evaluation. *)
Example ref_calc_k_cat_car : ref_calc_k (num := float) (str "cat") (str "car") = 4%float.
Proof. vm_compute. reflexivity. Qed.

Lemma calc_k_reference_witness :
  value_of (similarity (str "cat") (str "car"))
  = Some (ref_calc_k (str "cat") (str "car")).
Proof.
  exact (calc_k_reference (caller_heap (str "cat") (str "car")) 1 2 3
           (str "cat") (str "car") eq_refl eq_refl)%positive.
Defined.

(** C2 fails as stated: with the empty string the call returns 1.0, not 0. *)
Lemma similarity_empty_is_one :
  value_of (similarity [] (str "abc")) = Some 1%float ∧
  value_of (similarity (str "abc") []) = Some 1%float ∧
  (1 =? 0)%float = false.
Proof. repeat split; vm_compute; reflexivity. Qed.

Lemma calc_k_empty_witness :
  value_of (similarity [] (str "abc")) = Some 1%float ∧
  value_of (similarity_swapped [] (str "abc")) = Some 1%float.
Proof.
  exact (calc_k_empty (caller_heap [] (str "abc")) 1 2 3 (str "abc")
           eq_refl eq_refl)%positive.
Defined.

(** C3 fails as stated: on two strings whose scores exceed 2^53 the two
    orders round differently. *)
Lemma similarity_not_symmetric :
  ∃ v w, value_of (similarity long_left long_right) = Some v ∧
         value_of (similarity long_right long_left) = Some w ∧
         (v =? w)%float = false.
Proof.
  eexists _, _. split; [vm_compute; reflexivity|].
  split; [vm_compute; reflexivity|]. vm_compute. reflexivity.
Qed.

(** The exact score of the two long strings is above 2^53: some addition of
    the float computation has to round. *)
Example long_score_above_2_53 : (2 ^ 53 < exact_score long_left long_right)%Z.
Proof. vm_compute. reflexivity. Qed.

Lemma calc_k_symmetric_witness :
  ∃ v, value_of (similarity (str "cat") (str "car")) = Some v ∧
       value_of (similarity_swapped (str "cat") (str "car")) = Some v ∧
       exact v (exact_score (str "cat") (str "car")).
Proof.
  exact (calc_k_symmetric (caller_heap (str "cat") (str "car")) 1 2 3
           (str "cat") (str "car") eq_refl eq_refl eq_refl)%positive.
Defined.

(** C4 fails as stated: with [None] for a sequence the call raises a
    [TypeError], not an [InvalidInputError]. *)
Lemma similarity_none_raises_type_error :
  raised (calc_k (num := float) 1%positive VNone (VRef 3%positive)
            (caller_heap (str "cat") (str "car"))) = Some TypeError ∧
  raised (calc_k (num := float) 1%positive VNone (VRef 3%positive)
            (caller_heap (str "cat") (str "car"))) ≠ Some InvalidInputError.
Proof. split; [reflexivity|discriminate]. Qed.

Lemma calc_k_errors_witness :
  calc_k (num := float) 1%positive VNone (VRef 3%positive)
    (caller_heap (str "cat") (str "car"))
  = Raise TypeError (caller_heap (str "cat") (str "car")) ∧
  calc_k (num := float) 1%positive (VRef 2%positive) VNone
    (caller_heap (str "cat") (str "car"))
  = Raise TypeError (caller_heap (str "cat") (str "car")) ∧
  calc_k (num := float) 1%positive VNone VNone (caller_heap (str "cat") (str "car"))
  = Raise TypeError (caller_heap (str "cat") (str "car")) ∧
  raised (similarity (str "cat") (str "car")) = None.
Proof.
  exact (calc_k_errors (caller_heap (str "cat") (str "car")) 1 2 3
           (str "cat") (str "car") eq_refl eq_refl)%positive.
Defined.




Lemma calc_k_deterministic_witness :
  ∃ v : float,
    value_of (similarity (str "cat") (str "car")) = Some v ∧
    value_of (calc_k 9%positive (VRef 8%positive) (VRef 7%positive) other_heap)
    = Some v.
Proof.
  exact (calc_k_deterministic (caller_heap (str "cat") (str "car")) other_heap
           1 9 2 3 8 7 (str "cat") (str "car")
           eq_refl eq_refl eq_refl eq_refl)%positive.
Defined.

Lemma calc_k_frame_witness :
  ∃ (v : float) h' row dp p d pv,
    similarity (str "cat") (str "car") = Ok v h' ∧
    caller_heap (str "cat") (str "car") ⊆ h' ∧
    caller_heap (num := float) (str "cat") (str "car") !! row = None ∧
    caller_heap (num := float) (str "cat") (str "car") !! dp = None ∧
    caller_heap (num := float) (str "cat") (str "car") !! p = None ∧
    h' = <[p := OFloats pv]> (<[dp := ORows (replicate (length (str "cat") + 1) row)]>
           (<[row := OFloats d]> (caller_heap (str "cat") (str "car")))) ∧
    ∀ self' b1 b2 (k1 k2 : list ascii),
      caller_heap (num := float) (str "cat") (str "car") !! b1 = Some (OSeq k1) →
      caller_heap (num := float) (str "cat") (str "car") !! b2 = Some (OSeq k2) →
      value_of (calc_k self' (VRef b1) (VRef b2) h')
      = value_of (calc_k self' (VRef b1) (VRef b2) (caller_heap (str "cat") (str "car"))).
Proof.
  exact (calc_k_frame (caller_heap (str "cat") (str "car")) 1 2 3
           (str "cat") (str "car") eq_refl eq_refl)%positive.
Defined.

(** C10 fails as stated: no read of [dp[i-1][k-1]] finds anything but the
    entry of the row [i-1] of the reference recurrence. *)
Lemma shared_row_reads_reference :
  ¬ ∃ (l1 l2 : list ascii) (i k : nat) (dp p : loc) (last : nat)
      (h1 h1' : heap ascii float) (v : float),
      1 ≤ i ≤ length l1 ∧ 1 ≤ k ≤ length l2 ∧
      before_match (VRef 2%positive) (VRef 3%positive) i k (caller_heap l1 l2)
      = Ok (dp, p, last) h1 ∧
      read_dp dp (i - 1) (k - 1) h1 = Ok v h1' ∧
      v ≠ grid_get (ref_grid l1 l2 (i - 1)).1 (i - 1) (k - 1).
Proof.
  intros (l1 & l2 & i & k & dp & p & last & h1 & h1' & v & Hi & Hk & Hrun & Hread & Hv).
  destruct (shared_row_at_match (num := float) (caller_heap l1 l2)
              2%positive 3%positive l1 l2 i k)
    as (row & dp' & p' & last' & d & h2 & Hrun' & _ & _ & Hreads & Hd); [done..|].
  rewrite Hrun in Hrun'. injection Hrun' as -> -> -> ->.
  rewrite Hreads in Hread by lia. injection Hread as <- _.
  apply Hv. unfold grid_get. by rewrite Hd.
Qed.

Lemma calc_k_shared_row_witness :
  (∃ row dp p last d (h1 : heap ascii float),
     before_match (VRef 2%positive) (VRef 3%positive) 2 3
       (caller_heap (str "cat") (str "car")) = Ok (dp, p, last) h1 ∧
     h1 !! dp = Some (ORows (replicate (length (str "cat") + 1) row)) ∧
     h1 !! row = Some (OFloats d) ∧
     (∀ j c, j ≤ length (str "cat") → c ≤ length (str "car") →
             read_dp dp j c h1 = Ok (get d c) h1) ∧
     (ref_grid (str "cat") (str "car") (2 - 1)).1 !! (2 - 1) = Some d) ∧
  (∃ row dp p d pv (h2 h3 : heap ascii float),
     before_sum (VRef 2%positive) (VRef 3%positive) 2 3
       (caller_heap (str "cat") (str "car")) = Ok (dp, p) h2 ∧
     h2 !! dp = Some (ORows (replicate (length (str "cat") + 1) row)) ∧
     h2 !! row = Some (OFloats d) ∧ h2 !! p = Some (OFloats pv) ∧
     sum_step dp p 2 3 h2 = Ok () h3 ∧
     h3 !! dp = Some (ORows (replicate (length (str "cat") + 1) row)) ∧
     ∀ j, j ≤ length (str "cat") →
          read_dp dp j 3 h3 = Ok (add (get d 3) (get pv 3)) h3).
Proof.
  refine (calc_k_shared_row (caller_heap (str "cat") (str "car")) 2%positive
            3%positive (str "cat") (str "car") 2 3 eq_refl eq_refl _ _);
    simpl; lia.
Defined.

(** * Further properties of calc_k *)

(** ** The table of scores, by prefixes *)

Section Prefixes.

Context {sym : Type} `{EqDecision sym}.
Context {num : Type} `{Arith num}.

Lemma acc_ext_seq a (l2 l2' : list sym) (f g : nat → num) k :
  (∀ j, j < k → l2 !! j = l2' !! j) → (∀ j, j < k → f j = g j) →
  acc a l2 f k = acc a l2' g k.
Proof.
  induction k as [|k IH]; intros Hl Hfg; [done|].
  simpl. rewrite IH by (intros; (apply Hl || apply Hfg); lia).
  rewrite Hl, Hfg by lia. done.
Qed.

(** The column [k] of the shared row depends on the first [k] symbols of the
    second sequence only. *)
Lemma row_of_take_cols (l1 l2 : list sym) k j :
  j ≤ k ≤ length l2 →
  get (row_of l1 l2) j = get (row_of l1 (take k l2)) j.
Proof.
  intros Hjk. revert j Hjk. induction l1 as [|a l1 IH] using rev_ind; intros j Hjk.
  - rewrite !row_of_nil; [done|rewrite length_take; lia|lia].
  - rewrite !row_of_snoc.
    rewrite !get_next_row by (rewrite length_row_of, ?length_take; lia).
    destruct j as [|j]; [apply IH; lia|].
    rewrite IH by lia. f_equal. apply acc_ext_seq.
    + intros j' Hj'. by rewrite lookup_take_lt by lia.
    + intros j' Hj'. apply IH. lia.
Qed.

Lemma row_of_prefix_score (l1 l2 : list sym) k :
  k ≤ length l2 → get (row_of l1 l2) k = score l1 (take k l2).
Proof.
  intros Hk. rewrite score_row_of, length_take_le by done.
  apply row_of_take_cols. lia.
Qed.

End Prefixes.

(** ** Scores in exact arithmetic *)

Section ExactScores.

Context {sym : Type} `{EqDecision sym}.

Local Open Scope Z_scope.

Lemma exact_score_nonneg_row (l1 l2 : list sym) k : 0 ≤ get (row_of (num := Z) l1 l2) k.
Proof. destruct (row_le_refl_row_of l1 l2) as [_ Hnn]. apply Hnn. Qed.

Lemma exact_score_snoc_l (s l2 : list sym) a k :
  (k ≤ length l2)%nat →
  get (row_of (num := Z) (s ++ [a]) l2) k
  = get (row_of s l2) k + acc a l2 (get (row_of s l2)) k.
Proof.
  intros Hk. rewrite row_of_snoc, get_next_row by (rewrite length_row_of; lia).
  destruct k; [|done]. simpl. unfold zero. simpl. lia.
Qed.

(** The score of two sequences that end with [a] and [b], from the scores of
    the sequences without their last symbols. *)
Lemma exact_score_snoc (s t : list sym) a b :
  exact_score (s ++ [a]) (t ++ [b]) + exact_score s t
  = exact_score s (t ++ [b]) + exact_score (s ++ [a]) t
    + (if bool_decide (a = b) then exact_score s t else 0).
Proof.
  assert (length (t ++ [b]) = S (length t)) as Hlen
    by (rewrite length_app; simpl; lia).
  assert (take (length t) (t ++ [b]) = t) as Htake by (by rewrite take_app_length).
  assert (exact_score (s ++ [a]) (t ++ [b])
          = get (row_of (num := Z) (s ++ [a]) (t ++ [b])) (S (length t))) as ->.
  { unfold exact_score. by rewrite score_row_of, Hlen. }
  assert (exact_score s (t ++ [b])
          = get (row_of (num := Z) s (t ++ [b])) (S (length t))) as ->.
  { unfold exact_score. by rewrite score_row_of, Hlen. }
  assert (exact_score (s ++ [a]) t
          = get (row_of (num := Z) (s ++ [a]) (t ++ [b])) (length t)) as ->.
  { unfold exact_score. rewrite (row_of_prefix_score _ (t ++ [b])) by lia.
    by rewrite Htake. }
  assert (exact_score s t = get (row_of (num := Z) s (t ++ [b])) (length t)) as ->.
  { unfold exact_score. rewrite (row_of_prefix_score _ (t ++ [b])) by lia.
    by rewrite Htake. }
  rewrite !exact_score_snoc_l by lia. simpl.
  rewrite list_lookup_middle by done.
  destruct (decide (a = b)) as [->|Hne].
  - rewrite !bool_decide_eq_true_2 by done. unfold add. simpl. lia.
  - rewrite !bool_decide_eq_false_2 by congruence. lia.
Qed.

Lemma acc_upper (a : sym) (l2 : list sym) (f : nat → Z) (c : Z) k :
  0 ≤ c → (∀ j, 0 ≤ f j ≤ c * 2 ^ Z.of_nat j) →
  acc a l2 f k ≤ c * 2 ^ Z.of_nat k - c.
Proof.
  intros Hc Hf. induction k as [|k IH].
  - simpl. unfold zero. simpl. lia.
  - specialize (Hf k). rewrite Nat2Z.inj_succ, Z.pow_succ_r by lia.
    simpl. case_bool_decide; unfold add; simpl;
      assert (0 < 2 ^ Z.of_nat k) by (apply Z.pow_pos_nonneg; lia); nia.
Qed.

(** A score is at most 2 to the total length. *)
Lemma row_of_upper (l1 l2 : list sym) k :
  get (row_of (num := Z) l1 l2) k ≤ 2 ^ Z.of_nat (length l1 + k).
Proof.
  revert k. induction l1 as [|a l1 IH] using rev_ind; intros k.
  - assert (0 < 2 ^ Z.of_nat (length (@nil sym) + k)) by (apply Z.pow_pos_nonneg; lia).
    destruct (decide (k ≤ length l2)%nat).
    + rewrite row_of_nil by done. unfold one. simpl in *. lia.
    + unfold get. rewrite lookup_ge_None_2 by (rewrite length_row_of; lia).
      unfold zero. simpl in *. lia.
  - rewrite length_app. simpl.
    replace (Z.of_nat (length l1 + 1 + k)) with (Z.succ (Z.of_nat (length l1 + k))) by lia.
    rewrite Z.pow_succ_r by lia.
    destruct (decide (k ≤ length l2)%nat).
    + rewrite exact_score_snoc_l by done.
      pose proof (IH k).
      pose proof (acc_upper a l2 (get (row_of l1 l2)) (2 ^ Z.of_nat (length l1)) k) as Hacc.
      rewrite Nat2Z.inj_add, Z.pow_add_r in * by lia.
      assert (0 < 2 ^ Z.of_nat (length l1)) by (apply Z.pow_pos_nonneg; lia).
      assert (0 < 2 ^ Z.of_nat k) by (apply Z.pow_pos_nonneg; lia).
      specialize (Hacc ltac:(lia)). 
      assert (∀ j, 0 ≤ get (row_of l1 l2) j ≤ 2 ^ Z.of_nat (length l1) * 2 ^ Z.of_nat j) as Hall.
      { intros j. split; [apply exact_score_nonneg_row|].
        rewrite <- Z.pow_add_r, <- Nat2Z.inj_add by lia. apply IH. }
      specialize (Hacc Hall). lia.
    + unfold get. rewrite lookup_ge_None_2 by (rewrite length_row_of; lia).
      assert (0 < 2 ^ Z.of_nat (length l1 + k)) by (apply Z.pow_pos_nonneg; lia).
      unfold zero. simpl. lia.
Qed.

Lemma exact_score_bounds (l1 l2 : list sym) :
  1 ≤ exact_score l1 l2 ≤ 2 ^ Z.of_nat (length l1 + length l2).
Proof.
  split.
  - unfold exact_score. rewrite score_row_of.
    pose proof (row_of_mono_cols l1 l2 0 (length l2) ltac:(lia)) as Hmono.
    by rewrite get_row_of_0 in Hmono.
  - unfold exact_score. rewrite score_row_of. apply row_of_upper.
Qed.

Lemma exact_score_nil_r (l1 : list sym) : exact_score l1 [] = 1.
Proof. unfold exact_score. rewrite score_row_of. exact (get_row_of_0 (num := Z) l1 []). Qed.

(** The score grows with both sequences. *)
Lemma exact_score_mono (l1 l1' l2 l2' : list sym) :
  l1 `sublist_of` l1' → l2 `sublist_of` l2' →
  exact_score l1 l2 ≤ exact_score l1' l2'.
Proof.
  intros H1 H2. etrans; [by apply (score_sublist_mono l1 l1' l2)|].
  fold (exact_score l1' l2). rewrite (exact_score_sym l1' l2), (exact_score_sym l1' l2').
  by apply score_sublist_mono.
Qed.


(** Against a one-symbol sequence, the score counts the occurrences. *)
Lemma exact_score_singleton (l : list sym) a :
  exact_score l [a] = 1 + Z.of_nat (length (filter (λ x, x = a) l)).
Proof.
  induction l as [|x l IH] using rev_ind.
  - unfold exact_score. by vm_compute.
  - pose proof (exact_score_snoc l [] x a) as Hrec. simpl in Hrec.
    rewrite !exact_score_nil_r in Hrec.
    rewrite filter_app, length_app, filter_cons, filter_nil.
    case_decide; case_bool_decide; try done; simpl; lia.
Qed.

End ExactScores.

(** ** Sequences without a common symbol *)

Section Disjoint.

Context {sym : Type} `{EqDecision sym}.
Context {num : Type} `{Arith num}.

Lemma acc_no_match a (l2 : list sym) (f : nat → num) k :
  a ∉ l2 → acc a l2 f k = zero.
Proof.
  intros Ha. induction k as [|k IH]; [done|].
  simpl. rewrite bool_decide_eq_false_2; [done|].
  intros Hk. apply Ha. by eapply list_elem_of_lookup_2.
Qed.

Lemma row_of_disjoint (l1 l2 : list sym) :
  add one zero = one → (∀ a, a ∈ l1 → a ∉ l2) →
  row_of l1 l2 = replicate (length l2 + 1) one.
Proof.
  intros H10 Hdis. induction l1 as [|a l1 IH] using rev_ind; [done|].
  rewrite row_of_snoc, IH by (intros; apply Hdis, elem_of_app; by left).
  apply get_ext; [by rewrite length_next_row|].
  intros k Hk. rewrite length_next_row in Hk.
  rewrite get_next_row by done. rewrite length_replicate in Hk.
  destruct k as [|k]; [done|].
  rewrite acc_no_match by (apply Hdis, elem_of_app; right; constructor).
  by rewrite get_replicate by lia.
Qed.

End Disjoint.

(** ** The entries of [dp] *)

Section Table.

Context {sym : Type} `{EqDecision sym}.
Context {num : Type} `{Arith num}.

(** X1: at the head of the outer iteration [i + 1], that is after [i] outer
    iterations, every line of [dp] holds in its column [k] the value that
    [calc_k] returns on the first [i] symbols of [s1] and the first [k]
    symbols of [s2]. *)
Theorem dp_holds_prefix_scores (h : heap sym num) a1 a2 (l1 l2 : list sym) i k :
  h !! a1 = Some (OSeq l1) → h !! a2 = Some (OSeq l2) →
  i ≤ length l1 → k ≤ length l2 →
  ∃ dp p h1 v,
    before_outer (VRef a1) (VRef a2) (i + 1) h = Ok (dp, p) h1 ∧
    (∀ j, j ≤ length l1 → read_dp dp j k h1 = Ok v h1) ∧
    ∀ (h' : heap sym num) self c1 c2,
      h' !! c1 = Some (OSeq (take i l1)) → h' !! c2 = Some (OSeq (take k l2)) →
      value_of (calc_k self (VRef c1) (VRef c2) h') = Some v.
Proof.
  intros H1 H2 Hi Hk.
  destruct (run_before_outer h a1 a2 l1 l2 (i + 1) H1 H2) as (row & dp & p & L & Hrun);
    [lia|].
  replace (i + 1 - 1) with i in Hrun by lia. rewrite rows_pure_row_of in Hrun.
  eexists dp, p, _, (score (take i l1) (take k l2)). split; [exact Hrun|]. split.
  - intros j Hj. unfold read_dp.
    erewrite bind_ok by (by eapply run_getitem_row).
    eapply run_getitem_d; [done|].
    rewrite <- row_of_prefix_score by done.
    apply get_lookup. rewrite length_row_of. lia.
  - intros h' self c1 c2 Hc1 Hc2.
    by destruct (calc_k_run h' self c1 c2 _ _ Hc1 Hc2) as (? & ? & ? & _ & ->).
Qed.

(** X6: on two sequences without a common symbol [calc_k] returns 1.0, when
    adding 0 to 1 gives 1 (as it does on floats). *)
Theorem calc_k_disjoint (h : heap sym num) self a1 a2 (l1 l2 : list sym) :
  add one zero = one →
  h !! a1 = Some (OSeq l1) → h !! a2 = Some (OSeq l2) →
  (∀ a, a ∈ l1 → a ∉ l2) →
  value_of (calc_k self (VRef a1) (VRef a2) h) = Some one.
Proof.
  intros H10 H1 H2 Hdis.
  destruct (calc_k_run h self a1 a2 l1 l2 H1 H2) as (? & ? & ? & _ & ->).
  simpl. f_equal. rewrite score_row_of, row_of_disjoint by done.
  apply get_replicate. lia.
Qed.

End Table.

(** ** Float scores of short sequences *)

Section Short.

Context {sym : Type} `{EqDecision sym}.

Lemma short_below_2_53 (l1 l2 : list sym) :
  length l1 + length l2 ≤ 52 → (exact_score l1 l2 < 2 ^ 53)%Z.
Proof.
  intros Hlen. destruct (exact_score_bounds l1 l2) as [_ Hup].
  assert (2 ^ Z.of_nat (length l1 + length l2) ≤ 2 ^ 52)%Z
    by (apply Z.pow_le_mono_r; lia).
  assert (2 ^ 52 < 2 ^ 53)%Z by done. lia.
Qed.

(** X2: when the two lengths add up to at most 52, no addition of [calc_k]
    rounds: the float returned is the integer score of the recurrence, which
    lies between 1 and 2 to the total length. *)
Theorem calc_k_exact_on_short_inputs (h : heap sym float) self a1 a2
    (l1 l2 : list sym) :
  h !! a1 = Some (OSeq l1) → h !! a2 = Some (OSeq l2) →
  length l1 + length l2 ≤ 52 →
  ∃ v, value_of (calc_k self (VRef a1) (VRef a2) h) = Some v ∧
       exact v (exact_score l1 l2) ∧
       (1 ≤ exact_score l1 l2 ≤ 2 ^ Z.of_nat (length l1 + length l2))%Z.
Proof.
  intros H1 H2 Hlen. exists (score l1 l2).
  destruct (calc_k_run h self a1 a2 l1 l2 H1 H2) as (? & ? & ? & _ & ->).
  split; [done|]. split; [|apply exact_score_bounds].
  by apply score_exact, short_below_2_53.
Qed.

(** X3: when the two lengths add up to at most 52,
    [calc_k(s1, s2) == calc_k(s2, s1)]. *)
Theorem calc_k_symmetric_on_short_inputs (h : heap sym float) self a1 a2
    (l1 l2 : list sym) :
  h !! a1 = Some (OSeq l1) → h !! a2 = Some (OSeq l2) →
  length l1 + length l2 ≤ 52 →
  ∃ v, value_of (calc_k self (VRef a1) (VRef a2) h) = Some v ∧
       value_of (calc_k self (VRef a2) (VRef a1) h) = Some v.
Proof.
  intros H1 H2 Hlen. exists (score l1 l2).
  destruct (calc_k_run h self a1 a2 l1 l2 H1 H2) as (? & ? & ? & _ & ->).
  destruct (calc_k_run h self a2 a1 l2 l1 H2 H1) as (? & ? & ? & _ & ->).
  split; [done|]. simpl. f_equal.
  apply (exact_inj _ _ (exact_score l1 l2)).
  - rewrite exact_score_sym. apply score_exact, short_below_2_53. lia.
  - by apply score_exact, short_below_2_53.
Qed.



(** X7: deleting symbols from either sequence never increases the score:
    when [s1] is a subsequence of [t1] and [s2] of [t2], and the lengths of
    [t1] and [t2] add up to at most 52, [calc_k(s1, s2) <= calc_k(t1, t2)]. *)
Theorem calc_k_monotone (h : heap sym float) self a1 a2 b1 b2
    (l1 l2 k1 k2 : list sym) :
  h !! a1 = Some (OSeq l1) → h !! a2 = Some (OSeq l2) →
  h !! b1 = Some (OSeq k1) → h !! b2 = Some (OSeq k2) →
  l1 `sublist_of` k1 → l2 `sublist_of` k2 →
  length k1 + length k2 ≤ 52 →
  ∃ v w, value_of (calc_k self (VRef a1) (VRef a2) h) = Some v ∧
         value_of (calc_k self (VRef b1) (VRef b2) h) = Some w ∧
         (v <=? w)%float = true.
Proof.
  intros H1 H2 H3 H4 Hs1 Hs2 Hlen. exists (score l1 l2), (score k1 k2).
  destruct (calc_k_run h self a1 a2 l1 l2 H1 H2) as (? & ? & ? & _ & ->).
  destruct (calc_k_run h self b1 b2 k1 k2 H3 H4) as (? & ? & ? & _ & ->).
  split; [done|]. split; [done|].
  pose proof (exact_score_mono l1 k1 l2 k2 Hs1 Hs2) as Hle.
  pose proof (short_below_2_53 k1 k2 Hlen) as Hb.
  apply (exact_leb _ _ (exact_score l1 l2) (exact_score k1 k2));
    [apply score_exact; lia|by apply score_exact|done..].
Qed.

(** X8: against a sequence made of the one symbol [a], a sequence of fewer
    than 2^53 - 1 symbols scores 1 plus the number of its symbols equal to
    [a]. *)
Theorem calc_k_counts_occurrences (h : heap sym float) self a1 a2
    (l : list sym) a :
  h !! a1 = Some (OSeq l) → h !! a2 = Some (OSeq [a]) →
  (Z.of_nat (length l) + 1 < 2 ^ 53)%Z →
  ∃ v, value_of (calc_k self (VRef a1) (VRef a2) h) = Some v ∧
       exact v (1 + Z.of_nat (length (filter (λ x, x = a) l))).
Proof.
  intros H1 H2 Hlen. exists (score l [a]).
  destruct (calc_k_run h self a1 a2 l [a] H1 H2) as (? & ? & ? & _ & ->).
  split; [done|]. rewrite <- exact_score_singleton. apply score_exact.
  rewrite exact_score_singleton.
  pose proof (length_filter (λ x, x = a) l). lia.
Qed.

End Short.

(** ** The accumulator is reused, never read stale *)

Section Accumulator.

Context {sym : Type} `{EqDecision sym}.
Context {num : Type} `{Arith num}.

(** X9: an outer iteration overwrites [p] before it reads it: run from two
    stores that differ in the contents of [p] only, the body of the outer loop
    ends in the same store. *)
Theorem outer_step_ignores_stale_p (h0 : heap sym num) a1 a2 (l1 l2 : list sym)
    row dp p n d pv pv' i :
  layout h0 a1 a2 l1 l2 row dp p →
  1 ≤ i ≤ n → i ≤ length l1 →
  length d = length l2 + 1 → length pv = length l2 + 1 → length pv' = length l2 + 1 →
  ∃ h1,
    outer_step (VRef a1) (VRef a2) dp p (length l2) i (call_heap h0 row dp p n d pv)
    = Ok () h1 ∧
    outer_step (VRef a1) (VRef a2) dp p (length l2) i (call_heap h0 row dp p n d pv')
    = Ok () h1.
Proof.
  intros L Hi Hil Hd Hpv Hpv'.
  destruct (lookup_lt_is_Some_2 l1 (i - 1)) as [a Ha]; [lia|].
  eexists. split.
  - by apply (run_outer_step _ _ _ _ _ _ _ _ L _ _ _ _ a).
  - rewrite (run_outer_step _ _ _ _ _ _ _ _ L _ _ _ _ a) by done.
    by rewrite !outer_pure_spec.
Qed.

End Accumulator.

(** ** On strings *)

Lemma outer_step_ignores_stale_p_witness :
  ∃ h1 : heap ascii float,
    outer_step (VRef 2%positive) (VRef 3%positive) 5%positive 6%positive
      (length (str "car")) 1
      (call_heap (caller_heap (str "cat") (str "car")) 4%positive 5%positive 6%positive
         3 [1; 1; 1; 1]%float [0; 0; 0; 0]%float)
    = Ok () h1 ∧
    outer_step (VRef 2%positive) (VRef 3%positive) 5%positive 6%positive
      (length (str "car")) 1
      (call_heap (caller_heap (str "cat") (str "car")) 4%positive 5%positive 6%positive
         3 [1; 1; 1; 1]%float [7; 8; 9; 10]%float)
    = Ok () h1.
Proof.
  refine (outer_step_ignores_stale_p (caller_heap (str "cat") (str "car"))
            2%positive 3%positive (str "cat") (str "car")
            4%positive 5%positive 6%positive 3
            [1; 1; 1; 1]%float [0; 0; 0; 0]%float [7; 8; 9; 10]%float 1
            _ _ _ eq_refl eq_refl eq_refl).
  - split; (reflexivity || discriminate).
  - lia.
  - simpl. lia.
Defined.

Lemma dp_holds_prefix_scores_witness :
  ∃ dp p (h1 : heap ascii float) (v : float),
    before_outer (VRef 2%positive) (VRef 3%positive) (2 + 1)
      (caller_heap (str "cat") (str "car")) = Ok (dp, p) h1 ∧
    (∀ j, j ≤ length (str "cat") → read_dp dp j 2 h1 = Ok v h1) ∧
    ∀ (h' : heap ascii float) self c1 c2,
      h' !! c1 = Some (OSeq (take 2 (str "cat"))) →
      h' !! c2 = Some (OSeq (take 2 (str "car"))) →
      value_of (calc_k self (VRef c1) (VRef c2) h') = Some v.
Proof.
  refine (dp_holds_prefix_scores (caller_heap (str "cat") (str "car"))
            2%positive 3%positive (str "cat") (str "car") 2 2 eq_refl eq_refl _ _);
    simpl; lia.
Defined.

Lemma calc_k_disjoint_witness :
  value_of (similarity (str "ab") (str "cd")) = Some 1%float.
Proof.
  refine (calc_k_disjoint (num := float) (caller_heap (str "ab") (str "cd"))
            1%positive 2%positive 3%positive (str "ab") (str "cd")
            eq_refl eq_refl eq_refl _).
  intros a Ha. simpl in Ha. simpl.
  rewrite !not_elem_of_cons. rewrite !elem_of_cons, elem_of_nil in Ha.
  destruct Ha as [->|[->|[]]]; repeat split; (discriminate || apply not_elem_of_nil).
Defined.

Lemma calc_k_exact_on_short_inputs_witness :
  ∃ v, value_of (similarity (str "cat") (str "car")) = Some v ∧
       exact v (exact_score (str "cat") (str "car")) ∧
       (1 ≤ exact_score (str "cat") (str "car")
        ≤ 2 ^ Z.of_nat (length (str "cat") + length (str "car")))%Z.
Proof.
  refine (calc_k_exact_on_short_inputs (caller_heap (str "cat") (str "car"))
            1%positive 2%positive 3%positive (str "cat") (str "car")
            eq_refl eq_refl _).
  simpl. lia.
Defined.

Lemma calc_k_symmetric_on_short_inputs_witness :
  ∃ v, value_of (similarity (str "cat") (str "car")) = Some v ∧
       value_of (similarity_swapped (str "cat") (str "car")) = Some v.
Proof.
  refine (calc_k_symmetric_on_short_inputs (caller_heap (str "cat") (str "car"))
            1%positive 2%positive 3%positive (str "cat") (str "car")
            eq_refl eq_refl _).
  simpl. lia.
Defined.



Lemma calc_k_monotone_witness :
  ∃ v w : float,
    value_of (calc_k 1%positive (VRef 2%positive) (VRef 4%positive)
                (store4 (str "ca") (str "cat") (str "ar") (str "cart"))) = Some v ∧
    value_of (calc_k 1%positive (VRef 3%positive) (VRef 5%positive)
                (store4 (str "ca") (str "cat") (str "ar") (str "cart"))) = Some w ∧
    (v <=? w)%float = true.
Proof.
  refine (calc_k_monotone (store4 (str "ca") (str "cat") (str "ar") (str "cart"))
            1%positive 2%positive 4%positive 3%positive 5%positive
            (str "ca") (str "ar") (str "cat") (str "cart")
            eq_refl eq_refl eq_refl eq_refl _ _ _).
  - simpl. repeat first [apply sublist_nil | apply sublist_skip | apply sublist_cons].
  - simpl. repeat first [apply sublist_nil | apply sublist_skip | apply sublist_cons].
  - simpl. lia.
Defined.

Lemma calc_k_counts_occurrences_witness :
  ∃ v, value_of (similarity (str "banana") (str "a")) = Some v ∧
       exact v (1 + Z.of_nat (length (filter (λ x, x = "a"%char) (str "banana")))).
Proof.
  exact (calc_k_counts_occurrences (caller_heap (str "banana") (str "a"))
           1%positive 2%positive 3%positive (str "banana") "a"%char
           eq_refl eq_refl eq_refl).
Defined.
